(** * Session-scoped retrieval engine of the chat-bot repository

    A shallow embedding of [ai_app/rag_utils.py]: the sentence-aligned
    chunker, the three module-level session dictionaries with their
    operations, and the retrieval with its diversity re-ranking.

    Conventions of the embedding.
    - A Python [str] holding text is a list of Unicode code points
      ([text]); dictionary keys (session ids, document ids) are [string].
    - A Python [int] parameter is a [Z]; list indices produced by the code
      are [nat].
    - A call that can raise returns an [outcome]; the module-level
      dictionaries are threaded explicitly as a [Store], which keeps every
      mutation made before an exception.
    - Library functions ([numpy], [sentence_transformers], [pickle]) are the
      fields of the class [Externals]; what the proofs need of them is the
      class [ExternalsLaws]. The development is parametric in the
      arithmetic of the scores: it holds for any comparison that is a
      strict weak order, which floats are once NaN is excluded.
    - The embedding model is a total function of the text; [pickle.loads]
      is partial. *)

From stdpp Require Import gmap strings list fin_maps sorting.
From Stdlib Require Import ZArith QArith Lia.
From Stdlib Require Strings.Byte DecimalString.

Open Scope Z_scope.
Open Scope list_scope.

(** ** Python values and exceptions *)

Module Py.

(** The exceptions the module can raise. [UnpicklingError] stands for
    whatever [pickle.loads] raises on bytes it cannot read ([EOFError] on
    truncated input included). *)
Inductive exn : Type :=
| IndexError
| KeyError
| ValueError
| UnpicklingError.

(** [OutOfFuel] is not a Python behaviour: it marks a [while] loop of the
    model that was given too few iterations. *)
Inductive outcome (A : Type) : Type :=
| Returns (a : A)
| Raises (e : exn)
| OutOfFuel.
Arguments Returns {A} a.
Arguments Raises {A} e.
Arguments OutOfFuel {A}.

Definition bind {A B} (m : outcome A) (k : A -> outcome B) : outcome B :=
  match m with
  | Returns a => k a
  | Raises e => Raises e
  | OutOfFuel => OutOfFuel
  end.

(** The list comprehension [[f(x) for x in l]], left to right. *)
Fixpoint list_comp {A B} (f : A -> outcome B) (l : list A)
  : outcome (list B) :=
  match l with
  | [] => Returns []
  | x :: l' =>
      bind (f x) (fun y => bind (list_comp f l') (fun ys => Returns (y :: ys)))
  end.

(** [l[i]] for an index [i >= 0]. *)
Definition index {A} (l : list A) (i : nat) : outcome A :=
  match l !! i with
  | Some x => Returns x
  | None => Raises IndexError
  end.

(** [len(l)]. *)
Definition len {A} (l : list A) : Z := Z.of_nat (length l).

(** Truth value of a list: [if l:]. *)
Definition truthy {A} (l : list A) : bool :=
  match l with [] => false | _ => true end.

(** [l[start:]] with Python's treatment of a negative or too large
    [start]; [-0] is [0], so [l[-0:]] is the whole list. *)
Definition slice_from {A} (start : Z) (l : list A) : list A :=
  let n := len l in
  let s := if start <? 0 then Z.max 0 (start + n) else Z.min start n in
  drop (Z.to_nat s) l.

End Py.
Import Py.

#[global] Instance outcome_ret : MRet outcome := fun A a => Returns a.
#[global] Instance outcome_bind : MBind outcome := fun A B k m => bind m k.

(** ** Text: [str.split], [str.join], [re.split], [clean_text] *)

Definition char := N.
Definition text := list char.

(** A literal of the development as code points. *)
Definition str (s : string) : text :=
  map Ascii.N_of_ascii (String.list_ascii_of_string s).

(** Python's Unicode whitespace, used by [str.split], [str.strip] and the
    regular expression class [\s]. *)
Definition isspace (c : char) : bool :=
  ((9 <=? c) && (c <=? 13) || (28 <=? c) && (c <=? 32)
   || (c =? 133) || (c =? 160) || (c =? 5760)
   || (8192 <=? c) && (c <=? 8202) || (c =? 8232) || (c =? 8233)
   || (c =? 8239) || (c =? 8287) || (c =? 12288))%N.

Definition space : char := 32%N.

(** The class [[.!?]] of the sentence pattern. *)
Definition is_sentence_end (c : char) : bool :=
  ((c =? 46) || (c =? 33) || (c =? 63))%N.

(** [s.split()]: the maximal runs of non-whitespace characters. [w] is the
    word being read. *)
Fixpoint split_from (w : text) (s : text) : list text :=
  match s with
  | [] => if truthy w then [w] else []
  | c :: s' =>
      if isspace c
      then (if truthy w then w :: split_from [] s' else split_from [] s')
      else split_from (w ++ [c]) s'
  end.

Definition split (s : text) : list text := split_from [] s.

(** [" ".join(ws)]. *)
Fixpoint join (ws : list text) : text :=
  match ws with
  | [] => []
  | [w] => w
  | w :: ws' => w ++ space :: join ws'
  end.

(** [re.split(r'(?<=[.!?])\s+', s)]. A match starts at a whitespace
    character that follows one of [.!?] and takes the whole whitespace run
    (the [+] is greedy); inside a run not so preceded no match can start,
    because the character before is then whitespace. [piece] is the piece
    being read, [after_end] says that the previous character is one of
    [.!?], [in_match] that a match is being consumed. The pieces before,
    between and after the matches are returned, empty ones included. *)
Fixpoint re_split_from (piece : text) (after_end in_match : bool) (s : text)
  : list text :=
  match s with
  | [] => [piece]
  | c :: s' =>
      if isspace c then
        if in_match then re_split_from [] false true s'
        else if after_end then piece :: re_split_from [] false true s'
        else re_split_from (piece ++ [c]) false false s'
      else re_split_from (piece ++ [c]) (is_sentence_end c) false s'
  end.

Definition re_split_sentences (s : text) : list text :=
  re_split_from [] false false s.

(** [re.sub(r'\s+', ' ', s)]. *)
Fixpoint collapse_spaces (in_run : bool) (s : text) : text :=
  match s with
  | [] => []
  | c :: s' =>
      if isspace c
      then (if in_run then collapse_spaces true s'
            else space :: collapse_spaces true s')
      else c :: collapse_spaces false s'
  end.

(** The class [[\x00-\x08\x0b-\x0c\x0e-\x1f\x7f-\x9f]]. *)
Definition is_control (c : char) : bool :=
  ((c <=? 8) || (11 <=? c) && (c <=? 12) || (14 <=? c) && (c <=? 31)
   || (127 <=? c) && (c <=? 159))%N.

(** [s.replace(c, r)] for a one-character pattern. *)
Definition replace_char (c : char) (r : text) (s : text) : text :=
  flat_map (fun d => if (d =? c)%N then r else [d]) s.

Fixpoint lstrip (s : text) : text :=
  match s with
  | c :: s' => if isspace c then lstrip s' else s
  | [] => []
  end.

(** [s.strip()]. *)
Definition strip (s : text) : text :=
  reverse (lstrip (reverse (lstrip s))).

Definition clean_text (t : text) : text :=
  let t := collapse_spaces false t in
  let t := filter (fun c => is_control c = false) t in
  let t := replace_char 64258%N (str "fl") (replace_char 64257%N (str "fi") t) in
  strip t.

(** A word: a non-empty run of characters that are not whitespace. *)
Definition is_word (w : text) : Prop :=
  w ≠ [] ∧ Forall (fun c => isspace c = false) w.

(** ** The chunker *)

(** The three loop variables of [split_text_intelligent]. *)
Record chunker := {
  chunks : list text;
  current_chunk : list text;
  current_size : Z
}.

(** One iteration of [for sentence in sentences]. *)
Definition chunk_step (chunk_size overlap : Z) (st : chunker) (sentence : text)
  : chunker :=
  let sentence_words := split sentence in
  let sentence_size := len sentence_words in
  if (current_size st + sentence_size >? chunk_size)
     && truthy (current_chunk st)
  then
    let chunk_text := join (current_chunk st) in
    let overlap_words :=
      if len (current_chunk st) >? overlap
      then slice_from (- overlap) (current_chunk st)
      else current_chunk st in
    let cc := overlap_words ++ sentence_words in
    {| chunks := chunks st ++ [chunk_text];
       current_chunk := cc;
       current_size := len cc |}
  else
    {| chunks := chunks st;
       current_chunk := current_chunk st ++ sentence_words;
       current_size := current_size st + sentence_size |}.

Definition chunker_init : chunker :=
  {| chunks := []; current_chunk := []; current_size := 0 |}.

Definition split_text_intelligent (t : text) (chunk_size overlap : Z)
  : list text :=
  let sentences := re_split_sentences t in
  let st := fold_left (chunk_step chunk_size overlap) sentences chunker_init in
  if truthy (current_chunk st)
  then chunks st ++ [join (current_chunk st)]
  else chunks st.

(** The defaults of the signature. *)
Definition default_chunk_size : Z := 500.
Definition default_overlap : Z := 100.

(** ** The chunker as the specification words it

    A second definition, written from the specification's sentences, to be
    compared with [split_text_intelligent]: the running word count is the
    number of words of the current chunk, and a closed chunk hands its last
    [overlap] words (all of them when it has no more) to the next one. *)

(** The last [n] elements of [l], all of [l] when it has at most [n]. *)
Definition last_n {A} (n : nat) (l : list A) : list A :=
  drop (length l - n) l.

Definition spec_step (chunk_size overlap : Z)
    (acc : list (list text) * list text) (sentence : text)
  : list (list text) * list text :=
  let '(closed, cur) := acc in
  let ws := split sentence in
  if decide (len cur + len ws > chunk_size ∧ cur ≠ [])
  then (closed ++ [cur], last_n (Z.to_nat overlap) cur ++ ws)
  else (closed, cur ++ ws).

Definition chunker_spec (t : text) (chunk_size overlap : Z) : list text :=
  let '(closed, cur) :=
    fold_left (spec_step chunk_size overlap) (re_split_sentences t) ([], []) in
  join <$> (if decide (cur = []) then closed else closed ++ [cur]).

(** The words chunk [c] adds to those of the chunk [prev] before it: all of
    them for the first chunk, else those after its first
    [min(overlap, number of words of prev)] ones. *)
Definition kept_words (overlap : Z) (prev : option text) (c : text)
  : list text :=
  match prev with
  | None => split c
  | Some p => drop (Z.to_nat (Z.min overlap (len (split p)))) (split c)
  end.

(** The words a sequence of chunks contributes once the words each chunk
    repeats from its predecessor are left out. *)
Fixpoint non_overlap_words (overlap : Z) (prev : option text)
    (cs : list text) : list text :=
  match cs with
  | [] => []
  | c :: cs' => kept_words overlap prev c ++ non_overlap_words overlap (Some c) cs'
  end.

(** The code's loop variables [st] and the specification's [acc] agree. *)
Definition chunker_agrees (st : chunker) (acc : list (list text) * list text)
  : Prop :=
  chunks st = join <$> acc.1
  ∧ current_chunk st = acc.2
  ∧ current_size st = len acc.2.

(** The chunk before [c] in the sequence [l ++ [c]] that follows [prev]. *)
Definition last_or {A} (prev : option A) (l : list A) : option A :=
  match last l with Some x => Some x | None => prev end.

(** The words of the chunk [c] that follow those it repeats from [prev]. *)
Definition fresh_words (overlap : Z) (prev : option (list text))
    (c : list text) : list text :=
  match prev with
  | None => c
  | Some p => drop (Z.to_nat (Z.min overlap (len p))) c
  end.

(** What the accumulator of the specification's loop covers: [W] is the
    word sequence read so far. *)
Definition covers (overlap : Z) (acc : list (list text) * list text)
    (W : list text) : Prop :=
  Forall (Forall is_word) acc.1
  ∧ Forall is_word acc.2
  ∧ non_overlap_words overlap None (join <$> (acc.1 ++ [acc.2])) = W
  ∧ ∀ p, last acc.1 = Some p →
         (Z.to_nat (Z.min overlap (len p)) <= length acc.2)%nat.

(** [split_text_intelligent] as a call: on a [str] and two [int]s none of
    its statements raises. *)
Definition split_text_intelligent_call (t : text) (chunk_size overlap : Z)
  : outcome (list text) :=
  Returns (split_text_intelligent t chunk_size overlap).

(** ** Library functions the module calls *)

Definition bytes := list Byte.byte.

Class Externals := {
  (** a numpy float *)
  scalar : Type;
  (** a numpy array of shape [(D,)] *)
  vector : Type;
  (** [model.encode(t, convert_to_numpy=True, normalize_embeddings=True)] *)
  encode : text -> vector;
  (** [np.dot] on two vectors *)
  np_dot : vector -> vector -> scalar;
  (** [np.argsort] on a one-dimensional array *)
  np_argsort : list scalar -> list nat;
  (** [x < y], and so [y > x] *)
  f_lt : scalar -> scalar -> bool;
  f_add : scalar -> scalar -> scalar;
  f_sub : scalar -> scalar -> scalar;
  f_mul : scalar -> scalar -> scalar;
  (** a numeric literal of the source *)
  f_lit : Q -> scalar;
  (** [pickle.loads]; [None] when it raises *)
  pickle_loads : bytes -> option vector
}.

(** What the proofs use of the library: the comparison of scores is a strict
    weak order (as on floats that are not NaN), and [np.argsort] returns the
    indices of its argument arranged so that the values ascend. Nothing is
    assumed on the order of equal values, nor on the arithmetic. *)
Class ExternalsLaws `{Externals} : Prop := {
  f_lt_irrefl x : f_lt x x = false;
  f_lt_trans x y z : f_lt x y = true -> f_lt y z = true -> f_lt x z = true;
  f_lt_incomp x y z :
    f_lt x y = false -> f_lt y z = false -> f_lt x z = false;
  np_argsort_perm l : np_argsort l ≡ₚ seq 0 (length l);
  np_argsort_ascending l i j a b x y :
    (i <= j)%nat ->
    np_argsort l !! i = Some a -> np_argsort l !! j = Some b ->
    l !! a = Some x -> l !! b = Some y ->
    f_lt y x = false
}.

(** ** The session store *)

Record metadata := {
  doc_id : string;
  doc_name : string;
  chunk_id : Z;
  char_count : Z
}.

(** A row of the [DocumentEmbedding] table as [load_session_from_database]
    reads it: [document_id] is [str(emb_obj.document.id)] and
    [original_filename] is [emb_obj.document.original_filename]. *)
Record DocumentEmbedding := {
  chunk_text : text;
  chunk_index : Z;
  embedding_vector : bytes;
  document_id : string;
  original_filename : string
}.

(** The dictionary returned by [get_session_stats]: the per-session form and
    the form for all sessions have different keys. *)
Inductive stats : Type :=
| SessionStats (session_id : string) (total_chunks unique_documents : Z)
| AllStats (total_sessions total_chunks : Z) (sessions : gset string).

Section Engine.
Context `{Externals}.

(** The three module-level dictionaries. *)
Record Store := {
  session_documents : gmap string (list text);
  session_embeddings : gmap string (list vector);
  session_metadata : gmap string (list metadata)
}.

Definition empty_store : Store :=
  {| session_documents := ∅; session_embeddings := ∅;
     session_metadata := ∅ |}.

(** A statement of the module: it may raise, and it leaves a store. *)
Definition action (A : Type) : Type := Store -> outcome A * Store.

Definition action_ret {A} (a : A) : action A := fun st => (Returns a, st).

Definition and_then {A B} (m : action A) (k : A -> action B) : action B :=
  fun st =>
    match m st with
    | (Returns a, st') => k a st'
    | (Raises e, st') => (Raises e, st')
    | (OutOfFuel, st') => (OutOfFuel, st')
    end.

(** A computation that reads nothing of the store. *)
Definition lift {A} (o : outcome A) : action A := fun st => (o, st).

(** [d[k].append(x)] on one of the dictionaries. *)
Definition dict_append {A} (d : gmap string (list A)) (k : string) (x : A)
  : outcome (gmap string (list A)) :=
  match d !! k with
  | Some l => Returns (<[k := l ++ [x]]> d)
  | None => Raises KeyError
  end.

Definition append_document (k : string) (x : text) : action unit :=
  fun st =>
    match dict_append (session_documents st) k x with
    | Returns d =>
        (Returns (),
         {| session_documents := d;
            session_embeddings := session_embeddings st;
            session_metadata := session_metadata st |})
    | Raises e => (Raises e, st)
    | OutOfFuel => (OutOfFuel, st)
    end.

Definition append_embedding (k : string) (x : vector) : action unit :=
  fun st =>
    match dict_append (session_embeddings st) k x with
    | Returns d =>
        (Returns (),
         {| session_documents := session_documents st;
            session_embeddings := d;
            session_metadata := session_metadata st |})
    | Raises e => (Raises e, st)
    | OutOfFuel => (OutOfFuel, st)
    end.

Definition append_metadata (k : string) (x : metadata) : action unit :=
  fun st =>
    match dict_append (session_metadata st) k x with
    | Returns d =>
        (Returns (),
         {| session_documents := session_documents st;
            session_embeddings := session_embeddings st;
            session_metadata := d |})
    | Raises e => (Raises e, st)
    | OutOfFuel => (OutOfFuel, st)
    end.

(** [if session_id not in session_documents:] and the three
    assignments of an empty list. *)
Definition init_session (session_id : string) : action unit :=
  fun st =>
    if decide (session_id ∈ dom (session_documents st))
    then (Returns (), st)
    else
      (Returns (),
       {| session_documents := <[session_id := []]> (session_documents st);
          session_embeddings := <[session_id := []]> (session_embeddings st);
          session_metadata := <[session_id := []]> (session_metadata st) |}).

(** [for idx, chunk in enumerate(chunks)], from index [idx] on. *)
Fixpoint store_chunks (doc_id session_id doc_name : string) (idx : Z)
    (cs : list text) : action unit :=
  match cs with
  | [] => action_ret ()
  | chunk :: cs' =>
      let emb := encode chunk in
      and_then (append_document session_id chunk) (fun _ =>
      and_then (append_embedding session_id emb) (fun _ =>
      and_then (append_metadata session_id
                  {| doc_id := doc_id; doc_name := doc_name;
                     chunk_id := idx; char_count := len chunk |}) (fun _ =>
      store_chunks doc_id session_id doc_name (idx + 1) cs')))
  end.

Definition process_document_text_with_storage
    (t : text) (doc_id session_id doc_name : string) : action unit :=
  and_then (init_session session_id) (fun _ =>
    let t := clean_text t in
    let cs := split_text_intelligent t default_chunk_size default_overlap in
    store_chunks doc_id session_id doc_name 0 cs).

Definition deserialize_embedding (embedding_bytes : bytes) : outcome vector :=
  match pickle_loads embedding_bytes with
  | Some v => Returns v
  | None => Raises UnpicklingError
  end.

(** [for emb_obj in document_embeddings]. *)
Fixpoint load_rows (session_id : string) (rows : list DocumentEmbedding)
  : action unit :=
  match rows with
  | [] => action_ret ()
  | emb_obj :: rows' =>
      and_then (append_document session_id (chunk_text emb_obj)) (fun _ =>
      and_then (lift (deserialize_embedding (embedding_vector emb_obj)))
        (fun embedding =>
      and_then (append_embedding session_id embedding) (fun _ =>
      and_then (append_metadata session_id
                  {| doc_id := document_id emb_obj;
                     doc_name := original_filename emb_obj;
                     chunk_id := chunk_index emb_obj;
                     char_count := len (chunk_text emb_obj) |}) (fun _ =>
      load_rows session_id rows'))))
  end.

Definition load_session_from_database (session_id : string)
    (document_embeddings : list DocumentEmbedding) : action unit :=
  and_then (init_session session_id) (fun _ =>
    load_rows session_id document_embeddings).

(** [if k in d: del d[k]]. *)
Definition dict_discard {A} (k : string) (d : gmap string A) : gmap string A :=
  if decide (k ∈ dom d) then delete k d else d.

Definition clear_session_documents (session_id : string) : action unit :=
  fun st =>
    (Returns (),
     {| session_documents := dict_discard session_id (session_documents st);
        session_embeddings := dict_discard session_id (session_embeddings st);
        session_metadata := dict_discard session_id (session_metadata st) |}).

Definition clear_document_store : action unit :=
  fun _ => (Returns (), empty_store).

(** [d[k]]. *)
Definition dict_get {A} (d : gmap string A) (k : string) : outcome A :=
  match d !! k with
  | Some x => Returns x
  | None => Raises KeyError
  end.

(** Truth value of the optional argument: [None] and [''] are false. *)
Definition id_truthy (session_id : option string) : option string :=
  match session_id with
  | Some s => if decide (s = EmptyString) then None else Some s
  | None => None
  end.

Definition get_session_stats (session_id : option string) (st : Store)
  : outcome stats :=
  match id_truthy session_id with
  | Some sid =>
      if decide (sid ∈ dom (session_documents st)) then
        docs ← dict_get (session_documents st) sid;
        metas ← dict_get (session_metadata st) sid;
        mret (SessionStats sid (len docs)
                (Z.of_nat (size (list_to_set (doc_id <$> metas) : gset string))))
      else mret (SessionStats sid 0 0)
  | None =>
      mret (AllStats
              (Z.of_nat (size (session_documents st)))
              (map_fold (fun _ cs n => len cs + n) 0 (session_documents st))
              (dom (session_documents st)))
  end.

(** *** Sequences of store operations *)

Inductive store_op : Type :=
| Ingest (t : text) (doc_id session_id doc_name : string)
| Rehydrate (session_id : string) (rows : list DocumentEmbedding)
| ClearSession (session_id : string)
| ClearAll.

Definition run_op (op : store_op) : action unit :=
  match op with
  | Ingest t doc_id session_id doc_name =>
      process_document_text_with_storage t doc_id session_id doc_name
  | Rehydrate session_id rows => load_session_from_database session_id rows
  | ClearSession session_id => clear_session_documents session_id
  | ClearAll => clear_document_store
  end.

(** The store after a sequence of operations; an operation that raises
    leaves the store as it was at the raise, and the next one runs on
    it. *)
Definition run_ops (ops : list store_op) (st : Store) : Store :=
  fold_left (fun st op => (run_op op st).2) ops st.

(** The three dictionaries have the same keys, and under each key lists
    of one length. *)
Definition store_inv (st : Store) : Prop :=
  dom (session_documents st) = dom (session_embeddings st)
  ∧ dom (session_documents st) = dom (session_metadata st)
  ∧ ∀ sid docs embs metas,
      session_documents st !! sid = Some docs →
      session_embeddings st !! sid = Some embs →
      session_metadata st !! sid = Some metas →
      length docs = length embs ∧ length docs = length metas.

(** Every stored vector of the rows can be unpickled. *)
Definition rows_loadable (rows : list DocumentEmbedding) : Prop :=
  Forall (fun r => is_Some (pickle_loads (embedding_vector r))) rows.

Definition op_loadable (op : store_op) : Prop :=
  match op with
  | Rehydrate _ rows => rows_loadable rows
  | _ => True
  end.

End Engine.

(** ** Retrieval *)

Section Retrieval.
Context `{Externals}.

(** The sentinel of an absent or empty session. *)
Definition sentinel : text := str "No document uploaded yet.".

(** The default [diversity_weight], the literal [0.3]. *)
Definition default_diversity_weight : scalar := f_lit (3 # 10).

(** [min(l)]: the first of the smallest elements. *)
Fixpoint py_min_from (m : scalar) (l : list scalar) : scalar :=
  match l with
  | [] => m
  | x :: l' => py_min_from (if f_lt x m then x else m) l'
  end.

Definition py_min (l : list scalar) : outcome scalar :=
  match l with
  | [] => Raises ValueError
  | x :: l' => Returns (py_min_from x l')
  end.

(** The body of [for idx in remaining] up to [combined_score]. *)
Definition combined_score (similarities : list scalar)
    (embeddings : list vector) (selected : list nat)
    (diversity_weight : scalar) (idx : nat) : outcome scalar :=
  relevance ← index similarities idx;
  dissimilarities ←
    list_comp (fun sel_idx =>
                 e ← index embeddings idx;
                 s ← index embeddings sel_idx;
                 mret (f_sub (f_lit 1) (np_dot e s)))
              selected;
  diversity ← py_min dissimilarities;
  mret (f_add (f_mul (f_sub (f_lit 1) diversity_weight) relevance)
              (f_mul diversity_weight diversity)).

(** The [for] loop over [remaining]. [best] is the pair
    [(best_idx, best_score)]; the initial pair [(None, -inf)] is [None],
    and a score is taken to be a number, so that it is above [-inf]. *)
Fixpoint best_candidate (similarities : list scalar)
    (embeddings : list vector) (selected : list nat)
    (diversity_weight : scalar) (remaining : list nat)
    (best : option (nat * scalar)) : outcome (option (nat * scalar)) :=
  match remaining with
  | [] => mret best
  | idx :: rest =>
      combined ← combined_score similarities embeddings selected
                   diversity_weight idx;
      best_candidate similarities embeddings selected diversity_weight rest
        match best with
        | Some (_, best_score) =>
            if f_lt best_score combined then Some (idx, combined) else best
        | None => Some (idx, combined)
        end
  end.

(** [l.remove(x)]: the first occurrence goes, [ValueError] without one. *)
Fixpoint list_remove (x : nat) (l : list nat) : outcome (list nat) :=
  match l with
  | [] => Raises ValueError
  | y :: l' =>
      if decide (y = x) then mret l'
      else (r ← list_remove x l'; mret (y :: r))
  end.

(** [while len(selected) < top_k and remaining], at most [fuel] times. *)
Fixpoint rerank_loop (fuel : nat) (similarities : list scalar)
    (embeddings : list vector) (top_k : Z) (diversity_weight : scalar)
    (selected remaining : list nat) : outcome (list nat) :=
  if (len selected <? top_k) && truthy remaining then
    match fuel with
    | O => OutOfFuel
    | S fuel' =>
        best ← best_candidate similarities embeddings selected
                 diversity_weight remaining None;
        match best with
        | None => Raises ValueError
        | Some (best_idx, _) =>
            remaining' ← list_remove best_idx remaining;
            rerank_loop fuel' similarities embeddings top_k diversity_weight
              (selected ++ [best_idx]) remaining'
        end
    end
  else mret selected.

Definition rerank_with_diversity (candidate_indices : list nat)
    (similarities : list scalar) (embeddings : list vector) (top_k : Z)
    (diversity_weight : scalar) : outcome (list nat) :=
  if len candidate_indices <=? top_k then mret candidate_indices
  else
    match candidate_indices with
    | [] => Raises IndexError
    | first :: rest =>
        rerank_loop (length rest) similarities embeddings top_k
          diversity_weight [first] rest
    end.

(** [np.argsort(similarities)[-num_candidates:][::-1]]. *)
Definition top_indices (similarities : list scalar) (top_k : Z) : list nat :=
  let num_candidates := Z.min (top_k * 2) (len similarities) in
  reverse (slice_from (- num_candidates) (np_argsort similarities)).

(** The indices [retrieve_chunks] selects in a non-empty list of
    embeddings. *)
Definition selected_indices (query : text) (embeddings : list vector)
    (top_k : Z) : outcome (list nat) :=
  let query_emb := encode query in
  let similarities := np_dot query_emb <$> embeddings in
  rerank_with_diversity (top_indices similarities top_k) similarities
    embeddings top_k default_diversity_weight.

Definition retrieve_chunks (query : text) (session_id : option string)
    (top_k : Z) (st : Store) : outcome (list text) :=
  let session_id := default "default"%string session_id in
  match session_embeddings st !! session_id with
  | None | Some [] => mret [sentinel]
  | Some embeddings =>
      selected ← selected_indices query embeddings top_k;
      documents ← dict_get (session_documents st) session_id;
      list_comp (index documents) selected
  end.

(** [retrieve_chunks] as a statement of the module. *)
Definition retrieve_chunks_call (query : text) (session_id : option string)
    (top_k : Z) : action (list text) :=
  fun st => (retrieve_chunks query session_id top_k st, st).

(** *** Retrieval as the specification words it *)

(** Session [sid] holds the chunks [docs] with the vectors [embs]. *)
Definition holds_chunks (st : Store) (sid : string)
    (docs : list text) (embs : list vector) : Prop :=
  session_documents st !! sid = Some docs
  ∧ session_embeddings st !! sid = Some embs
  ∧ (∃ metas, session_metadata st !! sid = Some metas
              ∧ length metas = length docs)
  ∧ length docs = length embs.








(** *** The [while] loop as a relation

    [loop_run sims embs top_k w selected remaining result]: started with
    [selected] and [remaining], the loop of [rerank_with_diversity] ends
    with [selected = result]. *)
Inductive loop_run (sims : list scalar) (embs : list vector) (top_k : Z)
    (w : scalar) : list nat -> list nat -> list nat -> Prop :=
| loop_exit selected remaining :
    (len selected <? top_k) && truthy remaining = false →
    loop_run sims embs top_k w selected remaining selected
| loop_iter selected remaining best_idx best_score remaining' result :
    (len selected <? top_k) && truthy remaining = true →
    best_candidate sims embs selected w remaining None
    = Returns (Some (best_idx, best_score)) →
    list_remove best_idx remaining = Returns remaining' →
    loop_run sims embs top_k w (selected ++ [best_idx]) remaining' result →
    loop_run sims embs top_k w selected remaining result.

(** The session the call names is absent or has no chunk: this is the
    test of [retrieve_chunks], on the dictionary of the vectors. *)
Definition no_chunks (st : Store) (session_id : option string) : Prop :=
  let sid := default "default"%string session_id in
  session_embeddings st !! sid = None
  ∨ session_embeddings st !! sid = Some [].

(** What [clear_session_documents] promises for the session [s]. *)
Definition clear_spec (s : string) : Prop :=
  ∀ (st : Store) (query : text) (top_k : Z),
    let st' := (clear_session_documents s st).2 in
    (clear_session_documents s st).1 = Returns ()
    ∧ session_documents st' !! s = None
    ∧ session_embeddings st' !! s = None
    ∧ session_metadata st' !! s = None
    ∧ (clear_session_documents s st').2 = st'
    ∧ (session_documents st !! s = None →
       session_embeddings st !! s = None →
       session_metadata st !! s = None → st' = st)
    ∧ get_session_stats (Some s) st' = Returns (SessionStats s 0 0)
    ∧ retrieve_chunks query (Some s) top_k st' = Returns [sentinel].

End Retrieval.

(** ** An instance over the rationals

    Exact arithmetic on [Q] in place of floats, vectors as lists of
    rationals, a three-coordinate stand-in for the embedding model (the
    numbers of the letters a, b and c of the text), a merge sort for
    [np.argsort], and a stand-in for [pickle.loads] that reads one
    coordinate per byte and fails on the empty byte string. The examples and
    the counterexamples of the development are computed in it. *)

Module Rational.

Definition q_lt (x y : Q) : bool := negb (Qle_bool y x).

Definition q_dot (v w : list Q) : Q :=
  foldr Qplus 0%Q (zip_with Qmult v w).

Definition key_le (l : list Q) (i j : nat) : Prop :=
  Qle_bool (nth i l 0%Q) (nth j l 0%Q) = true.

#[global] Instance key_le_dec l i j : Decision (key_le l i j).
Proof. unfold key_le. apply _. Defined.

Definition q_argsort (l : list Q) : list nat :=
  merge_sort (key_le l) (seq 0 (length l)).

Definition count_char (c : char) (t : text) : Q :=
  inject_Z (len (filter (fun d => d = c) t)).

Definition q_encode (t : text) : list Q :=
  [count_char 97%N t; count_char 98%N t; count_char 99%N t].

Definition q_loads (bs : bytes) : option (list Q) :=
  match bs with
  | [] => None
  | _ => Some ((fun b => inject_Z (Z.of_N (Byte.to_N b))) <$> bs)
  end.

Definition externals : Externals :=
  {| scalar := Q;
     vector := list Q;
     encode := q_encode;
     np_dot := q_dot;
     np_argsort := q_argsort;
     f_lt := q_lt;
     f_add := Qplus;
     f_sub := Qminus;
     f_mul := Qmult;
     f_lit := fun q => q;
     pickle_loads := q_loads |}.

Definition meta (name : string) (i : Z) : metadata :=
  {| doc_id := "d1"; doc_name := name; chunk_id := i; char_count := 1 |}.

(** Session ["s"] with two chunks. *)
Definition store_two : @Store externals :=
  {| session_documents := {[ "s"%string := [str "a"; str "b"] ]};
     session_embeddings := {[ "s"%string := [[1; 0; 0]; [0; 1; 0]]%Q ]};
     session_metadata :=
       {[ "s"%string := [meta "f.txt" 0; meta "f.txt" 1] ]} |}.

(** Session ["s"] with three chunks; the second is close to the first and
    a little more relevant to a query with as many a as b. *)
Definition store_three : @Store externals :=
  {| session_documents :=
       {[ "s"%string := [str "alpha"; str "alpha again"; str "beta"] ]};
     session_embeddings :=
       {[ "s"%string := [[1; 0; 0]; [1; 1 # 10; 0]; [0; 9 # 10; 0]]%Q ]};
     session_metadata :=
       {[ "s"%string := [meta "f.txt" 0; meta "f.txt" 1; meta "f.txt" 2] ]} |}.

(** [store_three] and one more session. *)
Definition store_three_more : @Store externals :=
  {| session_documents :=
       <[ "t"%string := [str "c"] ]> (session_documents store_three);
     session_embeddings :=
       <[ "t"%string := [[0; 0; 1]%Q] ]> (session_embeddings store_three);
     session_metadata :=
       <[ "t"%string := [meta "g.txt" 0] ]> (session_metadata store_three) |}.

(** A row whose stored vector is the empty byte string. *)
Definition corrupt_row : DocumentEmbedding :=
  {| chunk_text := str "a"; chunk_index := 0; embedding_vector := [];
     document_id := "d1"; original_filename := "f.txt" |}.

(** A row whose stored vector can be read. *)
Definition good_row : DocumentEmbedding :=
  {| chunk_text := str "b"; chunk_index := 0;
     embedding_vector := [Byte.x00; Byte.x01; Byte.x00];
     document_id := "d2"; original_filename := "g.txt" |}.

End Rational.

(** ** The rest of [rag_utils.py]: the simple splitter, the default session *)

(** [range(start, stop, step)]. *)
Definition py_range (start stop step : Z) : outcome (list Z) :=
  if step =? 0 then Raises ValueError
  else
    let count :=
      if 0 <? step then (stop - start + step - 1) / step
      else (start - stop - step - 1) / (- step) in
    Returns ((fun k => start + Z.of_nat k * step) <$> seq 0 (Z.to_nat count)).

(** The position a slice bound [i] denotes in [l]. *)
Definition clamp_index {A} (i : Z) (l : list A) : nat :=
  Z.to_nat (if i <? 0 then Z.max 0 (i + len l) else Z.min i (len l)).

(** [l[start:stop]]. *)
Definition py_slice {A} (start stop : Z) (l : list A) : list A :=
  let a := clamp_index start l in
  let b := clamp_index stop l in
  take (b - a) (drop a l).

Definition split_text (t : text) (chunk_size : Z) : outcome (list text) :=
  let words := split t in
  bind (py_range 0 (len words) chunk_size) (fun starts =>
    Returns ((fun i => join (py_slice i (i + chunk_size) words)) <$> starts)).

Definition default_split_size : Z := 300.

(** A character that is neither whitespace nor of the class [clean_text]
    removes: what cleaning keeps and a word can be made of. *)
Definition is_visible (c : char) : bool :=
  negb (isspace c) && negb (is_control c).

(** The two ligatures [clean_text] spells out. *)
Definition is_ligature (c : char) : bool :=
  ((c =? 64257) || (c =? 64258))%N.

Section Wrappers.
Context `{Externals}.


Definition get_stats (st : Store) : outcome stats :=
  get_session_stats None st.

(** The texts, vectors and metadata stored for a session, none when the
    session is absent. *)
Definition texts_of (st : Store) (sid : string) : list text :=
  default [] (session_documents st !! sid).

Definition vectors_of (st : Store) (sid : string) : list vector :=
  default [] (session_embeddings st !! sid).

Definition metadata_of (st : Store) (sid : string) : list metadata :=
  default [] (session_metadata st !! sid).

(** The metadata of the chunks [cs] of one document, numbered from
    [first]. *)
Fixpoint chunk_metadata (doc_id doc_name : string) (first : Z)
    (cs : list text) : list metadata :=
  match cs with
  | [] => []
  | c :: cs' =>
      {| doc_id := doc_id; doc_name := doc_name; chunk_id := first;
         char_count := len c |}
      :: chunk_metadata doc_id doc_name (first + 1) cs'
  end.

(** The metadata [load_session_from_database] stores for a row. *)
Definition row_metadata (r : DocumentEmbedding) : metadata :=
  {| doc_id := document_id r; doc_name := original_filename r;
     chunk_id := chunk_index r; char_count := len (chunk_text r) |}.

(** The session an operation writes to; none for [clear_document_store]. *)
Definition op_session (op : store_op) : option string :=
  match op with
  | Ingest _ _ session_id _ => Some session_id
  | Rehydrate session_id _ => Some session_id
  | ClearSession session_id => Some session_id
  | ClearAll => None
  end.

(** What the store holds for a session: its entry in each of the three
    dictionaries. *)
Definition session_of (st : Store) (sid : string)
  : option (list text) * option (list vector) * option (list metadata) :=
  (session_documents st !! sid, session_embeddings st !! sid,
   session_metadata st !! sid).

(** [i] is an index of the highest similarity. *)
Definition is_most_similar (sims : list scalar) (i : nat) : Prop :=
  ∃ x, sims !! i = Some x ∧ ∀ j y, sims !! j = Some y → f_lt x y = false.

End Wrappers.

(** ** The caller in [views.py]: [ask_ai_with_docs] *)

(** [client.chat.completions.create(...)] followed by
    [response.choices[0].message.content], as a function of the system and
    the user message: the content, or the text of the exception raised. *)
Class ChatModel := {
  chat_completion : text -> text -> text + text
}.

(** [sep.join(l)]. *)
Fixpoint join_with (sep : text) (l : list text) : text :=
  match l with
  | [] => []
  | [x] => x
  | x :: l' => x ++ sep ++ join_with sep l'
  end.

(** [str(n)] for a natural number. *)
Definition py_str_nat (n : nat) : text :=
  str (DecimalString.NilEmpty.string_of_uint (Nat.to_uint n)).

Definition newline : char := 10%N.
Definition double_quote : char := 34%N.

(** [f"[Excerpt {i+1}]:\n{chunk}"]. *)
Definition excerpt (i : nat) (chunk : text) : text :=
  str "[Excerpt " ++ py_str_nat (i + 1) ++ str "]:" ++ newline :: chunk.

Definition context_separator : text :=
  [newline; newline] ++ str "---" ++ [newline; newline].

Definition build_context (context_chunks : list text) : text :=
  join_with context_separator (imap excerpt context_chunks).

(** The prompt of [ask_ai_with_docs], line by line. *)
Definition build_prompt (context question : text) : text :=
  join_with [newline]
    [ str "You are a helpful AI assistant analyzing documents. Your task is to answer questions based ONLY on the provided document context.";
      [];
      str "INSTRUCTIONS:";
      str "1. Read the context carefully";
      str "2. Answer the question accurately using ONLY information from the context";
      str "3. If the context doesn't contain enough information, say "
        ++ double_quote
        :: str "I cannot find this information in the provided document"
        ++ [double_quote];
      str "4. Be specific and cite relevant parts when possible";
      str "5. Keep your answer clear, concise, and well-structured";
      [];
      str "DOCUMENT CONTEXT:";
      context;
      [];
      str "USER QUESTION:";
      question;
      [];
      str "ANSWER:" ].

Definition system_message : text :=
  str "You are a precise document analysis assistant. Answer questions based only on the provided context.".

Definition upload_first : text :=
  str "Please upload a document first before asking questions.".

(** The [try] block: the content, or the error message built from the
    exception. *)
Definition answer_of (r : text + text) : text :=
  match r with
  | inl content => content
  | inr e => str "Error generating response: " ++ e
  end.

Section Caller.
Context `{Externals} `{ChatModel}.

(** [context_chunks and context_chunks[0] == "No document uploaded yet."]
    is the test that the list has a first element and that it is the
    sentinel. *)
Definition ask_ai_with_docs (question : text) (session_id : option string)
    (st : Store) : outcome text :=
  context_chunks ← retrieve_chunks question session_id 5 st;
  if decide (head context_chunks = Some sentinel) then mret upload_first
  else
    let context := build_context context_chunks in
    let prompt := build_prompt context question in
    mret (answer_of (chat_completion system_message prompt)).

End Caller.

(** Stand-ins for the examples: a language model that answers with its
    prompt, and stores. *)
Module Toy.

Definition echo : ChatModel :=
  {| chat_completion := fun _ prompt => inl prompt |}.

(** Session ["s"] with one chunk, whose text is the sentinel. *)
Definition store_sentinel : @Store Rational.externals :=
  {| session_documents :=
       {[ "s"%string := [str "No document uploaded yet."] ]};
     session_embeddings := {[ "s"%string := [[1; 0; 0]%Q] ]};
     session_metadata := {[ "s"%string := [Rational.meta "f.txt" 0] ]} |}.

End Toy.

(** * Properties *)

(** ** Words *)

Lemma truthy_true {A} (l : list A) : truthy l = true ↔ l ≠ [].
Proof. by destruct l. Qed.

Lemma truthy_false {A} (l : list A) : truthy l = false ↔ l = [].
Proof. by destruct l. Qed.

Lemma split_from_nil w : split_from w [] = if truthy w then [w] else [].
Proof. done. Qed.

(** A whitespace character ends the word being read, whatever follows. *)
Lemma split_from_app_space w p c r :
  isspace c = true →
  split_from w (p ++ c :: r) = split_from w p ++ split_from [] r.
Proof.
  intros Hc. revert w. induction p as [|d p IH]; intros w; simpl.
  - rewrite Hc. by destruct (truthy w).
  - destruct (isspace d); [|apply IH].
    destruct (truthy w); simpl; by rewrite IH.
Qed.

Lemma split_from_word v w :
  Forall (fun c => isspace c = false) w → v ++ w ≠ [] →
  split_from v w = [v ++ w].
Proof.
  revert v. induction w as [|c w IH]; intros v Hw Hne; simpl.
  - rewrite app_nil_r in *. by destruct v.
  - inversion_clear Hw as [|?? Hc Hw']. rewrite Hc.
    rewrite IH; [by rewrite <- app_assoc | done |].
    rewrite <- app_assoc. by destruct v.
Qed.

Lemma split_from_words v s :
  Forall (fun c => isspace c = false) v →
  Forall is_word (split_from v s).
Proof.
  revert v. induction s as [|c s IH]; intros v Hv; simpl.
  - destruct v; simpl; constructor; [by split|constructor].
  - destruct (isspace c) eqn:Hc.
    + destruct v; simpl; [by apply IH|].
      constructor; [by split|by apply IH].
    + apply IH. apply Forall_app. split; [done|]. by constructor.
Qed.

Lemma split_words s : Forall is_word (split s).
Proof. by apply split_from_words. Qed.

(** [" ".join(ws).split()] is [ws] for a list of words. *)
Lemma split_join ws : Forall is_word ws → split (join ws) = ws.
Proof.
  unfold split. induction ws as [|w ws IH]; intros Hws; [done|].
  inversion_clear Hws as [|?? [Hne Hw] Hws'].
  destruct ws as [|w' ws]; simpl.
  - by apply split_from_word.
  - rewrite split_from_app_space by done.
    rewrite split_from_word by done. simpl. f_equal. by apply IH.
Qed.

(** Cutting a text at whitespace that follows a sentence end loses no
    word and joins none. *)
Lemma re_split_from_words s piece after_end in_match :
  (in_match = true → piece = []) →
  concat (split <$> re_split_from piece after_end in_match s)
  = split (piece ++ s).
Proof.
  revert piece after_end in_match.
  induction s as [|c s IH]; intros piece ae im Him; simpl.
  - by rewrite !app_nil_r.
  - destruct (isspace c) eqn:Hc.
    + destruct im.
      * rewrite Him by done. rewrite IH by done. simpl.
        unfold split. simpl. by rewrite Hc.
      * destruct ae.
        -- simpl. rewrite IH by done. simpl. unfold split.
           by rewrite split_from_app_space.
        -- rewrite IH by done. by rewrite <- app_assoc.
    + rewrite IH by done. by rewrite <- app_assoc.
Qed.

Lemma re_split_sentences_words s :
  concat (split <$> re_split_sentences s) = split s.
Proof. by apply re_split_from_words. Qed.

(** ** The chunker *)

Lemma last_n_length {A} n (l : list A) :
  length (last_n n l) = (n `min` length l)%nat.
Proof. unfold last_n. rewrite length_drop. lia. Qed.

Lemma last_n_all {A} n (l : list A) : (length l <= n)%nat → last_n n l = l.
Proof.
  intros Hn. unfold last_n.
  by replace (length l - n)%nat with 0%nat by lia.
Qed.

(** For a positive [overlap], the slice [l[-overlap:]] is the last
    [overlap] elements. *)
Lemma slice_from_last_n {A} (n : Z) (l : list A) :
  1 <= n → slice_from (- n) l = last_n (Z.to_nat n) l.
Proof.
  intros Hn. unfold slice_from, last_n, len in *.
  destruct (Z.ltb_spec (- n) 0); [|lia].
  f_equal. lia.
Qed.

Lemma chunk_step_agrees chunk_size overlap st acc sentence :
  1 <= overlap →
  chunker_agrees st acc →
  chunker_agrees (chunk_step chunk_size overlap st sentence)
                 (spec_step chunk_size overlap acc sentence).
Proof.
  intros Hov (Hch & Hcur & Hsize). destruct acc as [closed cur].
  simpl in *. unfold chunk_step, spec_step. rewrite Hsize, Hcur.
  destruct (decide _) as [[Hgt Hne]|Hno].
  - destruct (Z.gtb_spec (len cur + len (split sentence)) chunk_size);
      [|lia].
    apply truthy_true in Hne as Htr. rewrite Htr. simpl.
    assert ((if len cur >? overlap then slice_from (- overlap) cur else cur)
            = last_n (Z.to_nat overlap) cur) as ->.
    { destruct (Z.gtb_spec (len cur) overlap).
      - by apply slice_from_last_n.
      - symmetry. apply last_n_all. unfold len in *. lia. }
    split_and!; simpl; [|done|done].
    by rewrite Hch, fmap_app.
  - assert ((len cur + len (split sentence) >? chunk_size) && truthy cur
            = false) as ->.
    { destruct (Z.gtb_spec (len cur + len (split sentence)) chunk_size);
        [|done].
      simpl. apply truthy_false.
      destruct cur; [done|]. exfalso. apply Hno. split; [lia|done]. }
    split_and!; simpl; [done|done|].
    unfold len. rewrite length_app. lia.
Qed.

Lemma chunk_fold_agrees chunk_size overlap sentences st acc :
  1 <= overlap →
  chunker_agrees st acc →
  chunker_agrees (fold_left (chunk_step chunk_size overlap) sentences st)
                 (fold_left (spec_step chunk_size overlap) sentences acc).
Proof.
  intros Hov. revert st acc.
  induction sentences as [|s sentences IH]; intros st acc Hag; [done|].
  simpl. apply IH. by apply chunk_step_agrees.
Qed.

(** With a positive overlap the code is the chunker of the
    specification, whatever the chunk size. *)
Theorem split_text_intelligent_is_spec t chunk_size overlap :
  1 <= overlap →
  split_text_intelligent t chunk_size overlap
  = chunker_spec t chunk_size overlap.
Proof.
  intros Hov. unfold split_text_intelligent, chunker_spec.
  pose proof (chunk_fold_agrees chunk_size overlap (re_split_sentences t)
                chunker_init ([], []) Hov) as Hag.
  destruct (fold_left (spec_step _ _) _ _) as [closed cur].
  destruct Hag as (Hch & Hcur & _); [done|]. simpl in *.
  rewrite Hch, Hcur. destruct (decide (cur = [])) as [->|Hne]; [done|].
  apply truthy_true in Hne as ->. by rewrite fmap_app.
Qed.

(** *** Coverage *)

Lemma non_overlap_words_snoc overlap prev cs c :
  non_overlap_words overlap prev (cs ++ [c])
  = non_overlap_words overlap prev cs ++ kept_words overlap (last_or prev cs) c.
Proof.
  revert prev. induction cs as [|d cs IH]; intros prev; simpl.
  - by rewrite app_nil_r.
  - rewrite IH, <- app_assoc. do 2 f_equal. unfold last_or.
    destruct cs as [|e cs]; [done|]. rewrite last_cons_cons.
    destruct (last (e :: cs)) eqn:E; [done|]. by apply last_None in E.
Qed.

Lemma non_overlap_words_join_snoc overlap L c :
  Forall (Forall is_word) L → Forall is_word c →
  non_overlap_words overlap None (join <$> (L ++ [c]))
  = non_overlap_words overlap None (join <$> L)
    ++ fresh_words overlap (last L) c.
Proof.
  intros HL Hc. rewrite fmap_app. simpl.
  rewrite non_overlap_words_snoc. f_equal.
  unfold last_or. rewrite fmap_last.
  destruct (last L) as [p|] eqn:Hl; simpl.
  - apply last_Some in Hl as [L' ->].
    apply Forall_app in HL as [_ HL]. inversion_clear HL.
    by rewrite !split_join.
  - by rewrite split_join.
Qed.

Lemma covers_step chunk_size overlap acc W sentence :
  covers overlap acc W →
  covers overlap (spec_step chunk_size overlap acc sentence)
         (W ++ split sentence).
Proof.
  destruct acc as [closed cur]. intros (Hcl & Hcur & HW & Hk). simpl in *.
  pose proof (split_words sentence) as Hws.
  rewrite non_overlap_words_join_snoc in HW by done.
  unfold spec_step. destruct (decide _) as [[Hgt Hne]|Hno]; simpl.
  - assert (Forall is_word (last_n (Z.to_nat overlap) cur ++ split sentence))
      as Hnew.
    { apply Forall_app. split; [|done]. unfold last_n. by apply Forall_drop. }
    assert (Forall (Forall is_word) (closed ++ [cur])) as Hcl'.
    { apply Forall_app. split; [done|]. by repeat constructor. }
    split_and!; simpl; [done|done| |].
    + rewrite non_overlap_words_join_snoc by done.
      rewrite non_overlap_words_join_snoc by done.
      rewrite HW, last_snoc. simpl. f_equal.
      apply drop_app_length'. rewrite last_n_length. unfold len. lia.
    + intros p. rewrite last_snoc. intros [= <-].
      rewrite length_app, last_n_length. unfold len. lia.
  - assert (Forall is_word (cur ++ split sentence)) as Hnew
      by (apply Forall_app; by split).
    split_and!; simpl; [done|done| |].
    + rewrite non_overlap_words_join_snoc by done.
      rewrite <- HW, <- app_assoc. f_equal.
      destruct (last closed) as [p|] eqn:Hl; simpl; [|done].
      apply drop_app_le. by apply Hk.
    + intros p Hp. rewrite length_app. specialize (Hk p Hp). lia.
Qed.

Lemma covers_fold chunk_size overlap sentences acc W :
  covers overlap acc W →
  covers overlap (fold_left (spec_step chunk_size overlap) sentences acc)
         (W ++ concat (split <$> sentences)).
Proof.
  revert acc W. induction sentences as [|s sentences IH]; intros acc W Hc.
  - simpl. by rewrite app_nil_r.
  - simpl. rewrite app_assoc. apply IH. by apply covers_step.
Qed.

(** The chunker of the specification covers the text, for every
    configuration. *)
Lemma chunker_spec_coverage t chunk_size overlap :
  non_overlap_words overlap None (chunker_spec t chunk_size overlap)
  = split t.
Proof.
  unfold chunker_spec.
  pose proof (covers_fold chunk_size overlap (re_split_sentences t)
                ([], []) []) as Hc.
  destruct (fold_left _ _ _) as [closed cur].
  destruct Hc as (_ & _ & HW & _).
  { split_and!; simpl; [done|done|done|done]. }
  simpl in HW. rewrite re_split_sentences_words in HW.
  destruct (decide (cur = [])) as [->|Hne]; [|done].
  rewrite fmap_app in HW. simpl in HW.
  rewrite (non_overlap_words_snoc _ _ _ []) in HW.
  rewrite <- HW. unfold kept_words.
  destruct (last_or _ _); change (split []) with (@nil text);
    by rewrite ?drop_nil, app_nil_r.
Qed.

(** X26. Coverage of the code for a positive overlap: with
    [overlap >= 1], and for every text and chunk size, the words of the
    first chunk followed by the words of each later chunk after its first
    [min(overlap, number of words of the chunk before)] ones are the words
    of the text, in order, none lost and none repeated. *)
Theorem split_text_intelligent_coverage t chunk_size overlap :
  1 <= overlap →
  non_overlap_words overlap None (split_text_intelligent t chunk_size overlap)
  = split t.
Proof.
  intros Hov. rewrite split_text_intelligent_is_spec by done.
  apply chunker_spec_coverage.
Qed.

Lemma split_text_intelligent_empty chunk_size overlap :
  split_text_intelligent [] chunk_size overlap = [].
Proof.
  unfold split_text_intelligent. simpl. unfold chunk_step. simpl.
  by rewrite andb_false_r.
Qed.

(** ** The session store *)

Section StoreProperties.
Context `{Externals}.

(** The shape of a store: for every key, the lengths of the three lists
    when they are there. [store_inv] says that the three agree. *)
Lemma store_inv_alt st :
  store_inv st ↔
  ∀ sid,
    length <$> session_documents st !! sid
    = length <$> session_embeddings st !! sid
    ∧ length <$> session_documents st !! sid
      = length <$> session_metadata st !! sid.
Proof.
  split.
  - intros (Hde & Hdm & Hlen) sid.
    destruct (session_documents st !! sid) as [docs|] eqn:Hd.
    + assert (sid ∈ dom (session_documents st)) as Hin
        by (apply elem_of_dom; eauto).
      pose proof Hin as Hin'. rewrite Hde in Hin. rewrite Hdm in Hin'.
      apply elem_of_dom in Hin as [embs He].
      apply elem_of_dom in Hin' as [metas Hm].
      rewrite He, Hm. simpl.
      destruct (Hlen sid docs embs metas) as [-> <-]; done.
    + assert (sid ∉ dom (session_documents st)) as Hin
        by (by apply not_elem_of_dom).
      pose proof Hin as Hin'. rewrite Hde in Hin. rewrite Hdm in Hin'.
      apply not_elem_of_dom in Hin, Hin'. by rewrite Hin, Hin'.
  - intros Hs. split_and!.
    + apply set_eq. intros sid. rewrite !elem_of_dom.
      destruct (Hs sid) as [Hs1 _]. rewrite <- !fmap_is_Some with (f := length).
      by rewrite Hs1.
    + apply set_eq. intros sid. rewrite !elem_of_dom.
      destruct (Hs sid) as [_ Hs2]. rewrite <- !fmap_is_Some with (f := length).
      by rewrite Hs2.
    + intros sid docs embs metas Hd He Hm. destruct (Hs sid) as [Hs1 Hs2].
      rewrite Hd, He in Hs1. rewrite Hd, Hm in Hs2. simpl in *.
      split; congruence.
Qed.

Lemma empty_store_inv : store_inv empty_store.
Proof. apply store_inv_alt. intros sid. simpl. by rewrite !lookup_empty. Qed.

Lemma init_session_inv sid st :
  store_inv st →
  (init_session sid st).1 = Returns ()
  ∧ store_inv (init_session sid st).2
  ∧ is_Some (session_documents (init_session sid st).2 !! sid).
Proof.
  intros Hinv. unfold init_session. case_decide as Hin; simpl.
  - split_and!; [done|done|]. by apply elem_of_dom.
  - split_and!; [done| |by rewrite lookup_insert_eq].
    apply store_inv_alt. intros k. rewrite store_inv_alt in Hinv.
    simpl. destruct (decide (sid = k)) as [->|Hne].
    + by rewrite !lookup_insert_eq.
    + rewrite !lookup_insert_ne by done. apply Hinv.
Qed.

(** Appending one element to each of the three lists of a session. *)
Lemma append_triple_inv sid chunk emb meta st :
  store_inv st → is_Some (session_documents st !! sid) →
  ∃ st',
    and_then (append_document sid chunk) (fun _ =>
    and_then (append_embedding sid emb) (fun _ =>
    append_metadata sid meta)) st = (Returns (), st')
    ∧ store_inv st'
    ∧ is_Some (session_documents st' !! sid).
Proof.
  intros Hinv [docs Hd]. rewrite store_inv_alt in Hinv.
  destruct (Hinv sid) as [He Hm]. rewrite Hd in He, Hm. simpl in *.
  destruct (session_embeddings st !! sid) as [embs|] eqn:He'; [|done].
  destruct (session_metadata st !! sid) as [metas|] eqn:Hm'; [|done].
  simpl in *. injection He as He. injection Hm as Hm.
  eexists. split_and!.
  - unfold and_then, append_document, append_embedding, append_metadata,
      dict_append. rewrite Hd. simpl. rewrite He'. simpl. rewrite Hm'.
    reflexivity.
  - apply store_inv_alt. intros k. simpl.
    destruct (decide (sid = k)) as [->|Hne].
    + rewrite !lookup_insert_eq. simpl. rewrite !length_app. simpl.
      split; congruence.
    + rewrite !lookup_insert_ne by done. apply Hinv.
  - simpl. by rewrite lookup_insert_eq.
Qed.

Lemma store_chunks_inv doc_id sid doc_name cs idx st :
  store_inv st → is_Some (session_documents st !! sid) →
  (store_chunks doc_id sid doc_name idx cs st).1 = Returns ()
  ∧ store_inv (store_chunks doc_id sid doc_name idx cs st).2.
Proof.
  revert idx st. induction cs as [|c cs IH]; intros idx st Hinv Hsome.
  - done.
  - destruct (append_triple_inv sid c (encode c)
                {| doc_id := doc_id; doc_name := doc_name;
                   chunk_id := idx; char_count := len c |} st Hinv Hsome)
      as (st' & Hrun & Hinv' & Hsome').
    simpl. unfold and_then in *.
    destruct (append_document sid c st) as [[[]|e|] st1]; try done.
    destruct (append_embedding sid (encode c) st1) as [[[]|e|] st2];
      try done.
    destruct (append_metadata sid _ st2) as [[[]|e|] st3]; try done.
    injection Hrun as ->. by apply IH.
Qed.

(** Ingestion computes the embedding of a chunk before it appends
    anything, so it always completes and keeps the invariant. *)
Lemma process_document_inv t doc_id sid doc_name st :
  store_inv st →
  (process_document_text_with_storage t doc_id sid doc_name st).1
  = Returns ()
  ∧ store_inv (process_document_text_with_storage t doc_id sid doc_name st).2.
Proof.
  intros Hinv. unfold process_document_text_with_storage, and_then.
  destruct (init_session_inv sid st Hinv) as (Hr & Hinv' & Hsome).
  destruct (init_session sid st) as [r st1]. simpl in *. subst r.
  by apply store_chunks_inv.
Qed.

Lemma load_rows_inv sid rows st :
  store_inv st → is_Some (session_documents st !! sid) →
  rows_loadable rows →
  (load_rows sid rows st).1 = Returns ()
  ∧ store_inv (load_rows sid rows st).2.
Proof.
  revert st. induction rows as [|r rows IH]; intros st Hinv Hsome Hrows.
  - done.
  - inversion_clear Hrows as [|?? [v Hv] Hrows'].
    destruct (append_triple_inv sid (chunk_text r) v
                {| doc_id := document_id r;
                   doc_name := original_filename r;
                   chunk_id := chunk_index r;
                   char_count := len (chunk_text r) |} st Hinv Hsome)
      as (st' & Hrun & Hinv' & Hsome').
    simpl. unfold and_then, lift, deserialize_embedding in *. rewrite Hv.
    destruct (append_document sid (chunk_text r) st) as [[[]|e|] st1];
      try done.
    destruct (append_embedding sid v st1) as [[[]|e|] st2]; try done.
    destruct (append_metadata sid _ st2) as [[[]|e|] st3]; try done.
    injection Hrun as ->. by apply IH.
Qed.

Lemma load_session_inv sid rows st :
  store_inv st → rows_loadable rows →
  (load_session_from_database sid rows st).1 = Returns ()
  ∧ store_inv (load_session_from_database sid rows st).2.
Proof.
  intros Hinv Hrows. unfold load_session_from_database, and_then.
  destruct (init_session_inv sid st Hinv) as (Hr & Hinv' & Hsome).
  destruct (init_session sid st) as [r st1]. simpl in *. subst r.
  by apply load_rows_inv.
Qed.

Lemma dict_discard_lookup {A} k k' (d : gmap string A) :
  dict_discard k d !! k' = if decide (k = k') then None else d !! k'.
Proof.
  unfold dict_discard. case_decide as Hin; case_decide as Hk; subst.
  - by rewrite lookup_delete_eq.
  - by rewrite lookup_delete_ne.
  - by apply not_elem_of_dom.
  - done.
Qed.

Lemma clear_session_inv sid st :
  store_inv st → store_inv (clear_session_documents sid st).2.
Proof.
  rewrite !store_inv_alt. intros Hinv k. simpl.
  rewrite !dict_discard_lookup. case_decide; [done|apply Hinv].
Qed.

(** Every operation whose rows can be unpickled completes and keeps the
    invariant. *)
Lemma run_op_inv op st :
  store_inv st → op_loadable op →
  (run_op op st).1 = Returns () ∧ store_inv (run_op op st).2.
Proof.
  intros Hinv Hop. destruct op; simpl in *.
  - by apply process_document_inv.
  - by apply load_session_inv.
  - split; [done|by apply clear_session_inv].
  - split; [done|apply empty_store_inv].
Qed.

(** X25. The invariant after any sequence of operations whose rows can
    all be unpickled: from a store whose three dictionaries have the same
    keys and, under each key, lists of one length, every sequence of
    ingestions, loads of such rows, clears of a session and clears of the
    whole store leaves a store of that kind. *)
Theorem run_ops_inv ops st :
  store_inv st → Forall op_loadable ops → store_inv (run_ops ops st).
Proof.
  revert st. induction ops as [|op ops IH]; intros st Hinv Hops; [done|].
  inversion_clear Hops. simpl. apply IH; [|done]. by apply run_op_inv.
Qed.

(** What a row that cannot be unpickled leaves behind: its text is in
    the store, its vector and metadata are not. *)
Lemma load_failure_state sid row rows :
  pickle_loads (embedding_vector row) = None →
  load_session_from_database sid (row :: rows) empty_store
  = (Raises UnpicklingError,
     {| session_documents := {[ sid := [chunk_text row] ]};
        session_embeddings := {[ sid := [] ]};
        session_metadata := {[ sid := [] ]} |}).
Proof.
  intros Hrow.
  unfold load_session_from_database. cbn [load_rows].
  unfold and_then at 1. unfold init_session. cbn [session_documents empty_store].
  rewrite dom_empty_L. rewrite decide_False by set_solver.
  unfold and_then at 1. unfold append_document, dict_append.
  cbn [session_documents session_embeddings session_metadata].
  rewrite lookup_insert_eq.
  unfold and_then at 1. unfold lift, deserialize_embedding. rewrite Hrow.
  by rewrite insert_insert_eq, !insert_empty.
Qed.

Lemma dict_discard_absent {A} k (d : gmap string A) :
  d !! k = None → dict_discard k d = d.
Proof.
  intros Hk. unfold dict_discard. case_decide as Hin; [|done].
  apply elem_of_dom in Hin as [x Hx]. congruence.
Qed.

Lemma dict_discard_gone {A} k (d : gmap string A) :
  dict_discard k d !! k = None.
Proof. rewrite dict_discard_lookup. by case_decide. Qed.

End StoreProperties.

(** ** Retrieval: the sentinel, clearing, repeated calls *)

Section RetrievalBasics.
Context `{Externals}.

Lemma retrieve_chunks_no_chunks query session_id top_k st :
  no_chunks st session_id →
  retrieve_chunks query session_id top_k st = Returns [sentinel].
Proof.
  unfold no_chunks, retrieve_chunks. by intros [-> | ->].
Qed.

(** On a store that satisfies the invariant the test on the vectors is a
    test on the chunk texts. *)
Lemma no_chunks_documents st sid :
  store_inv st →
  no_chunks st (Some sid) ↔
  session_documents st !! sid = None ∨ session_documents st !! sid = Some [].
Proof.
  rewrite store_inv_alt. intros Hinv. destruct (Hinv sid) as [He _].
  unfold no_chunks. simpl.
  destruct (session_documents st !! sid) as [[|d docs]|],
           (session_embeddings st !! sid) as [[|e embs]|];
    simpl in *; try done; split; intros [?|?]; simplify_eq; auto.
Qed.

Lemma retrieve_chunks_call_pure query session_id top_k st :
  (retrieve_chunks_call query session_id top_k st).2 = st.
Proof. done. Qed.

(** The result depends on the store through the named session only. *)
Lemma retrieve_chunks_local query session_id top_k st st' :
  let sid := default "default"%string session_id in
  session_documents st !! sid = session_documents st' !! sid →
  session_embeddings st !! sid = session_embeddings st' !! sid →
  retrieve_chunks query session_id top_k st
  = retrieve_chunks query session_id top_k st'.
Proof.
  intros sid Hd He. unfold retrieve_chunks, dict_get. fold sid.
  by rewrite Hd, He.
Qed.

End RetrievalBasics.

(** ** Retrieval: scores and the scan for the best candidate *)

Lemma bind_Returns {A B} (m : outcome A) (k : A → outcome B) r :
  m ≫= k = Returns r ↔ ∃ a, m = Returns a ∧ k a = Returns r.
Proof.
  unfold mbind, outcome_bind. destruct m; simpl; split; try done.
  - eauto.
  - by intros (? & [= <-] & ?).
  - by intros (? & ? & ?).
  - by intros (? & ? & ?).
Qed.

Lemma index_Returns {A} (l : list A) i x :
  index l i = Returns x ↔ l !! i = Some x.
Proof. unfold index. destruct (l !! i); split; congruence. Qed.

Lemma index_lt {A} (l : list A) i :
  (i < length l)%nat → ∃ x, index l i = Returns x.
Proof.
  intros Hi. apply lookup_lt_is_Some_2 in Hi as [x Hx].
  exists x. by apply index_Returns.
Qed.

Lemma list_comp_Returns {A B} (f : A → outcome B) l ys :
  list_comp f l = Returns ys ↔ Forall2 (fun x y => f x = Returns y) l ys.
Proof.
  revert ys. induction l as [|x l IH]; intros ys; simpl.
  - split; [intros [= <-]; constructor|by inversion 1].
  - split.
    + destruct (f x) as [y| |] eqn:Hy; simpl; [|done|done].
      destruct (list_comp f l) as [ys'| |] eqn:Hys; simpl; [|done|done].
      intros [= <-]. constructor; [done|]. by apply IH.
    + inversion 1 as [|?? y ys' Hy Hys]; subst. rewrite Hy. simpl.
      apply IH in Hys. by rewrite Hys.
Qed.

Lemma list_comp_total {A B} (f : A → outcome B) l :
  (∀ x, x ∈ l → ∃ y, f x = Returns y) →
  ∃ ys, list_comp f l = Returns ys.
Proof.
  induction l as [|x l IH]; intros Hf; simpl; [by eexists|].
  destruct (Hf x) as [y ->]; [left|]. simpl.
  destruct IH as [ys ->]; [intros; apply Hf; by right|]. simpl. by eexists.
Qed.

Lemma list_remove_Returns x l l' :
  list_remove x l = Returns l' →
  ∃ l1 l2, l = l1 ++ x :: l2 ∧ l' = l1 ++ l2 ∧ x ∉ l1.
Proof.
  revert l'. induction l as [|y l IH]; intros l'; simpl; [done|].
  case_decide as Hy.
  - intros [= <-]. subst. exists [], l. split_and!; [done|done|].
    by apply not_elem_of_nil.
  - intros (r & Hr & [= <-])%bind_Returns.
    destruct (IH r Hr) as (l1 & l2 & -> & -> & Hx).
    exists (y :: l1), l2. split_and!; [done|done|].
    rewrite not_elem_of_cons. by split.
Qed.

Lemma list_remove_total x l :
  x ∈ l → ∃ l', list_remove x l = Returns l'.
Proof.
  induction l as [|y l IH]; [by intros ?%elem_of_nil|].
  intros Hx. simpl. case_decide as Hy; [by eexists|].
  apply elem_of_cons in Hx as [->|Hx]; [done|].
  destruct (IH Hx) as [l' ->]. by eexists.
Qed.

Section Scores.
Context `{Externals}.
Variables (sims : list scalar) (embs : list vector) (w : scalar).

(** With indices in range and something selected, the score of a
    candidate is computed. *)
Lemma combined_score_total selected idx :
  (idx < length sims)%nat → (idx < length embs)%nat →
  Forall (fun i => (i < length embs)%nat) selected → selected ≠ [] →
  ∃ v, combined_score sims embs selected w idx = Returns v.
Proof.
  intros Hs He Hsel Hne. unfold combined_score.
  destruct (index_lt sims idx Hs) as [rel ->].
  destruct (index_lt embs idx He) as [e Hidx].
  destruct (list_comp_total
              (fun sel_idx =>
                 e ← index embs idx; s ← index embs sel_idx;
                 mret (f_sub (f_lit 1) (np_dot e s))) selected)
    as [ds Hds].
  { intros sel Hin. rewrite Hidx.
    rewrite Forall_forall in Hsel.
    destruct (index_lt embs sel (Hsel _ Hin)) as [s ->]. by eexists. }
  unfold mbind at 1, outcome_bind at 1. simpl.
  rewrite Hds. unfold mbind at 1, outcome_bind at 1. simpl.
  apply list_comp_Returns in Hds.
  destruct ds as [|d ds]; [by inversion Hds; subst|].
  simpl. by eexists.
Qed.

Lemma best_candidate_total selected remaining best :
  (∀ idx, idx ∈ remaining →
          ∃ v, combined_score sims embs selected w idx = Returns v) →
  ∃ r, best_candidate sims embs selected w remaining best = Returns r
       ∧ (remaining ≠ [] → is_Some r).
Proof.
  revert best. induction remaining as [|idx rest IH]; intros best Hsc.
  - by eexists.
  - simpl. destruct (Hsc idx) as [v ->]; [left|]. simpl.
    destruct (IH
      match best with
      | Some (_, best_score) =>
          if f_lt best_score v then Some (idx, v) else best
      | None => Some (idx, v)
      end) as (r & Hr & Hsome); [intros; apply Hsc; by right|].
    exists r. split; [done|]. intros _.
    destruct rest as [|idx' rest]; [|by apply Hsome].
    simpl in Hr. injection Hr as <-.
    destruct best as [[b vb]|]; [|done]. by destruct (f_lt vb v).
Qed.

(** A scan started with nothing ends on a candidate of the list. *)
Lemma best_candidate_elem selected remaining best p v :
  best_candidate sims embs selected w remaining best = Returns (Some (p, v)) →
  p ∈ remaining ∨ best = Some (p, v).
Proof.
  revert best. induction remaining as [|idx rest IH]; intros best; simpl.
  - intros [= ->]. by right.
  - intros (c & Hc & Hr)%bind_Returns.
    apply IH in Hr as [Hin|Hb]; [left; by right|].
    destruct best as [[b vb]|].
    + destruct (f_lt vb c); [|by right].
      injection Hb as -> ->. left. by left.
    + injection Hb as -> ->. left. by left.
Qed.

End Scores.

(** ** Retrieval: the re-ranking loop *)

Section Loop.
Context `{Externals}.
Variables (sims : list scalar) (embs : list vector) (top_k : Z) (w : scalar).

Lemma loop_condition_false (selected remaining : list nat) :
  (len selected <? top_k) && truthy remaining = false ↔
  top_k <= len selected ∨ remaining = [].
Proof.
  rewrite andb_false_iff, Z.ltb_ge, truthy_false. done.
Qed.

Lemma loop_condition_true (selected remaining : list nat) :
  (len selected <? top_k) && truthy remaining = true ↔
  len selected < top_k ∧ remaining ≠ [].
Proof.
  rewrite andb_true_iff, Z.ltb_lt, truthy_true. done.
Qed.

(** Given as many iterations as there are candidates, the loop ends, with
    a result. *)
Lemma rerank_loop_run fuel selected remaining :
  (length remaining <= fuel)%nat →
  Forall (fun i => (i < length sims)%nat) remaining →
  Forall (fun i => (i < length embs)%nat) (selected ++ remaining) →
  selected ≠ [] →
  ∃ result,
    rerank_loop fuel sims embs top_k w selected remaining = Returns result
    ∧ loop_run sims embs top_k w selected remaining result.
Proof.
  revert selected remaining.
  induction fuel as [|fuel IH]; intros selected remaining Hfuel Hs He Hne.
  - destruct remaining; [|simpl in Hfuel; lia].
    exists selected. simpl. rewrite andb_false_r. split; [done|].
    apply loop_exit. by rewrite andb_false_r.
  - simpl. destruct ((len selected <? top_k) && truthy remaining) eqn:Hc.
    2:{ exists selected. split; [done|]. by apply loop_exit. }
    apply Forall_app in He as He'. destruct He' as [Hsel Hrem].
    destruct (best_candidate_total sims embs w selected remaining None)
      as (r & Hr & Hsome).
    { intros idx Hin. rewrite Forall_forall in Hs, Hrem.
      apply combined_score_total; auto. }
    apply loop_condition_true in Hc as Hc'. destruct Hc' as [_ Hrne].
    destruct (Hsome Hrne) as [[p v] ->].
    apply best_candidate_elem in Hr as Hin. destruct Hin as [Hin|]; [|done].
    destruct (list_remove_total p remaining Hin) as [rem' Hrem'].
    apply list_remove_Returns in Hrem' as Hsplit.
    destruct Hsplit as (l1 & l2 & -> & -> & Hp).
    destruct (IH (selected ++ [p]) (l1 ++ l2)) as (result & Hres & Hrun).
    + rewrite length_app in *. simpl in *. lia.
    + rewrite !Forall_app, !Forall_cons in Hs. rewrite Forall_app. tauto.
    + rewrite !Forall_app, !Forall_cons in He.
      rewrite !Forall_app, Forall_singleton. tauto.
    + by destruct selected.
    + exists result. rewrite Hr. simpl. rewrite Hrem'. simpl.
      split; [done|]. by eapply loop_iter.
Qed.

(** What an ended loop has done: it has moved candidates from
    [remaining] to the end of [selected], until [top_k] were selected or
    none remained, and never beyond [top_k]. *)
Lemma loop_run_moves selected remaining result :
  loop_run sims embs top_k w selected remaining result →
  ∃ picked rest,
    result = selected ++ picked
    ∧ remaining ≡ₚ picked ++ rest
    ∧ (top_k <= len result ∨ rest = [])
    ∧ len result <= Z.max top_k (len selected).
Proof.
  induction 1 as [selected remaining Hc
                 |selected remaining p v rem' result Hc Hbest Hrem _ IH].
  - exists [], remaining. rewrite app_nil_r.
    apply loop_condition_false in Hc. split_and!; [done|done|done|lia].
  - destruct IH as (picked & rest & -> & Hperm & Hstop & Hmax).
    apply list_remove_Returns in Hrem as (l1 & l2 & -> & -> & _).
    apply loop_condition_true in Hc as [Hlt _].
    exists (p :: picked), rest. split_and!.
    + by rewrite <- app_assoc.
    + rewrite <- Permutation_middle. simpl. by rewrite Hperm.
    + done.
    + unfold len in *. rewrite !length_app in *. simpl in *. lia.
Qed.

End Loop.

(** ** Retrieval: the loop never lacks iterations *)

Lemma bind_fuel {A B} (m : outcome A) (k : A → outcome B) :
  m ≠ OutOfFuel → (∀ a, k a ≠ OutOfFuel) → m ≫= k ≠ OutOfFuel.
Proof.
  intros Hm Hk. unfold mbind, outcome_bind. destruct m; simpl; [apply Hk|done..].
Qed.

Lemma index_fuel {A} (l : list A) i : index l i ≠ OutOfFuel.
Proof. unfold index. by destruct (l !! i). Qed.

Lemma list_comp_fuel {A B} (f : A → outcome B) l :
  (∀ x, f x ≠ OutOfFuel) → list_comp f l ≠ OutOfFuel.
Proof.
  intros Hf. induction l as [|x l IH]; simpl; [done|].
  destruct (f x) eqn:Hx; simpl; [|done|by apply Hf in Hx].
  by destruct (list_comp f l).
Qed.

Lemma list_remove_fuel x l : list_remove x l ≠ OutOfFuel.
Proof.
  induction l as [|y l IH]; simpl; [done|].
  case_decide; [done|]. by apply bind_fuel.
Qed.

Lemma list_remove_length x l l' :
  list_remove x l = Returns l' → length l = S (length l').
Proof.
  intros (l1 & l2 & -> & -> & _)%list_remove_Returns.
  rewrite !length_app. simpl. lia.
Qed.

Section Termination.
Context `{Externals}.
Variables (sims : list scalar) (embs : list vector) (top_k : Z) (w : scalar).

Lemma combined_score_fuel selected idx :
  combined_score sims embs selected w idx ≠ OutOfFuel.
Proof.
  unfold combined_score. apply bind_fuel; [apply index_fuel|]. intros rel.
  apply bind_fuel.
  - apply list_comp_fuel. intros sel.
    apply bind_fuel; [apply index_fuel|]. intros e.
    by apply bind_fuel; [apply index_fuel|].
  - intros ds. apply bind_fuel; [by destruct ds|done].
Qed.

Lemma best_candidate_fuel selected remaining best :
  best_candidate sims embs selected w remaining best ≠ OutOfFuel.
Proof.
  revert best. induction remaining as [|idx rest IH]; intros best; simpl.
  - done.
  - apply bind_fuel; [apply combined_score_fuel|]. intros c. apply IH.
Qed.

(** Every iteration removes a candidate, so as many iterations as there
    are candidates suffice, whatever the arguments. *)
Lemma rerank_loop_fuel fuel selected remaining :
  (length remaining <= fuel)%nat →
  rerank_loop fuel sims embs top_k w selected remaining ≠ OutOfFuel.
Proof.
  revert selected remaining.
  induction fuel as [|fuel IH]; intros selected remaining Hfuel; simpl.
  - destruct remaining; [|simpl in Hfuel; lia]. by rewrite andb_false_r.
  - destruct (_ && _); [|done].
    apply bind_fuel; [apply best_candidate_fuel|]. intros [[p v]|]; [|done].
    destruct (list_remove p remaining) as [rem'| |] eqn:Hrem; simpl;
      [|done|by apply list_remove_fuel in Hrem].
    apply IH. apply list_remove_length in Hrem. lia.
Qed.

Lemma rerank_with_diversity_fuel candidate_indices :
  rerank_with_diversity candidate_indices sims embs top_k w ≠ OutOfFuel.
Proof.
  unfold rerank_with_diversity. destruct (_ <=? _); [done|].
  destruct candidate_indices as [|first rest]; [done|].
  by apply rerank_loop_fuel.
Qed.

End Termination.

(** [retrieve_chunks] returns or raises, on every store and arguments. *)
Lemma retrieve_chunks_fuel `{Externals} query session_id top_k st :
  retrieve_chunks query session_id top_k st ≠ OutOfFuel.
Proof.
  unfold retrieve_chunks.
  destruct (session_embeddings st !! _) as [[|e embs]|]; [done| |done].
  apply bind_fuel; [apply rerank_with_diversity_fuel|]. intros selected.
  apply bind_fuel.
  - unfold dict_get. by destruct (_ !! _).
  - intros docs. apply list_comp_fuel. intros i. apply index_fuel.
Qed.

(** ** Retrieval: the shortlist *)

Section Shortlist.
Context `{Externals} `{!ExternalsLaws}.
Variables (sims : list scalar) (top_k : Z).
Hypothesis Htop : 1 <= top_k.
Hypothesis Hsims : sims ≠ [].

#[local] Abbreviation n := (length sims).
#[local] Abbreviation m := (Z.to_nat (Z.min (2 * top_k) (len sims))).

Lemma np_argsort_length : length (np_argsort sims) = n.
Proof. by rewrite np_argsort_perm, length_seq. Qed.

Lemma shortlist_size : (1 <= m <= n)%nat.
Proof. unfold len. destruct sims; [done|]. simpl. lia. Qed.

Lemma top_indices_eq :
  top_indices sims top_k = reverse (drop (n - m) (np_argsort sims)).
Proof.
  unfold top_indices. pose proof shortlist_size as Hm.
  rewrite slice_from_last_n by (unfold len in *; lia).
  unfold last_n. rewrite np_argsort_length. do 3 f_equal. lia.
Qed.



Lemma top_indices_range a :
  a ∈ top_indices sims top_k → (a < n)%nat.
Proof.
  rewrite top_indices_eq, elem_of_reverse. intros Ha.
  assert (a ∈ np_argsort sims) as Ha'.
  { eapply (sublist_subseteq _ _ (sublist_drop _ _)), Ha. }
  rewrite np_argsort_perm in Ha'. apply elem_of_seq in Ha'. lia.
Qed.




End Shortlist.

(** ** Retrieval: the greedy selection *)

Section Selection.
Context `{Externals} `{!ExternalsLaws}.




Variables (sims : list scalar) (embs : list vector) (w : scalar).









End Selection.

(** ** Retrieval on a session that holds chunks *)

Section Retrieve.
Context `{Externals} `{!ExternalsLaws}.

Lemma selected_indices_run query embs top_k :
  1 <= top_k → embs ≠ [] →
  let sims := np_dot (encode query) <$> embs in
  let shortlist := top_indices sims top_k in
  ∃ selected,
    selected_indices query embs top_k = Returns selected
    ∧ (len shortlist <= top_k → selected = shortlist)
    ∧ (top_k < len shortlist →
       ∃ first rest,
         shortlist = first :: rest
         ∧ loop_run sims embs top_k default_diversity_weight
                    [first] rest selected)
    ∧ Forall (fun i => (i < length embs)%nat) selected.
Proof.
  intros Htop Hne sims shortlist.
  assert (sims ≠ []) as Hsims by (subst sims; by destruct embs).
  assert (length sims = length embs) as Hlen
    by (subst sims; apply length_fmap).
  unfold selected_indices, rerank_with_diversity.
  fold sims. fold shortlist.
  destruct (Z.leb_spec (len shortlist) top_k) as [Hle|Hgt].
  - exists shortlist. split_and!; [done|done|lia|].
    apply Forall_forall. intros i Hi. rewrite <- Hlen.
    by apply (top_indices_range sims top_k).
  - pose proof (top_indices_range sims top_k Htop Hsims) as Hrange.
    fold shortlist in Hrange.
    destruct shortlist as [|first rest] eqn:Hsl.
    { unfold len in Hgt. simpl in Hgt. lia. }
    destruct (rerank_loop_run sims embs top_k default_diversity_weight
                (length rest) [first] rest) as (result & Hres & Hrun).
    + done.
    + apply Forall_forall. intros i Hi. apply Hrange. by right.
    + apply Forall_forall. intros i Hi. rewrite <- Hlen. by apply Hrange.
    + done.
    + exists result. split_and!; [done|lia|by eauto|].
      apply loop_run_moves in Hrun as (picked & others & -> & Hperm & _).
      apply Forall_forall. intros i Hi. rewrite <- Hlen. apply Hrange.
      apply elem_of_app in Hi as [->%list_elem_of_singleton|Hi]; [by left|].
      right. rewrite Hperm. apply elem_of_app. by left.
Qed.

Lemma texts_of_indices (docs : list text) (indices : list nat) :
  Forall (fun i => (i < length docs)%nat) indices →
  ∃ result,
    list_comp (index docs) indices = Returns result
    ∧ Forall2 (fun i t => docs !! i = Some t) indices result.
Proof.
  intros Hin.
  destruct (list_comp_total (index docs) indices) as [result Hres].
  { intros i Hi. rewrite Forall_forall in Hin. by apply index_lt, Hin. }
  exists result. split; [done|].
  apply list_comp_Returns in Hres.
  eapply Forall2_impl; [exact Hres|]. intros i t. by apply index_Returns.
Qed.

Lemma retrieve_chunks_selected query sid top_k st docs embs selected :
  holds_chunks st sid docs embs → embs ≠ [] →
  selected_indices query embs top_k = Returns selected →
  retrieve_chunks query (Some sid) top_k st
  = list_comp (index docs) selected.
Proof.
  intros (Hd & He & _) Hne Hsel. unfold retrieve_chunks. simpl.
  rewrite He. destruct embs as [|e embs]; [done|].
  rewrite Hsel. unfold dict_get. by rewrite Hd.
Qed.



End Retrieve.

(** ** The instance over the rationals satisfies the laws *)

Lemma StronglySorted_lookup {A} (R : relation A) l i j a b :
  StronglySorted R l → (i < j)%nat →
  l !! i = Some a → l !! j = Some b → R a b.
Proof.
  intros Hs. revert i j. induction Hs as [|x l Hs IH Hx]; intros i j Hij.
  - by rewrite lookup_nil.
  - destruct i as [|i], j as [|j]; simpl; try lia.
    + intros [= <-] Hb. rewrite Forall_forall in Hx.
      apply Hx. by eapply list_elem_of_lookup_2.
    + apply IH. lia.
Qed.

Lemma q_lt_true x y : Rational.q_lt x y = true ↔ (x < y)%Q.
Proof.
  unfold Rational.q_lt. rewrite negb_true_iff.
  destruct (Qle_bool y x) eqn:Hle.
  - apply Qle_bool_iff in Hle. split; [done|].
    intros Hlt. by apply Qlt_not_le in Hlt.
  - split; [|done]. intros _. apply Qnot_le_lt. intros Hle'.
    apply Qle_bool_iff in Hle'. congruence.
Qed.

Lemma q_lt_false x y : Rational.q_lt x y = false ↔ (y <= x)%Q.
Proof.
  unfold Rational.q_lt. rewrite negb_false_iff. apply Qle_bool_iff.
Qed.

#[local] Instance key_le_trans l : Transitive (Rational.key_le l).
Proof.
  intros i j k. unfold Rational.key_le. rewrite !Qle_bool_iff.
  apply Qle_trans.
Qed.

#[local] Instance key_le_total l : Total (Rational.key_le l).
Proof.
  intros i j. unfold Rational.key_le. rewrite !Qle_bool_iff.
  destruct (Qlt_le_dec (nth i l 0%Q) (nth j l 0%Q)) as [Hlt|Hle].
  - left. by apply Qlt_le_weak.
  - by right.
Qed.

Lemma rational_laws : @ExternalsLaws Rational.externals.
Proof.
  split; simpl.
  - intros x. apply q_lt_false, Qle_refl.
  - intros x y z. rewrite !q_lt_true. apply Qlt_trans.
  - intros x y z. rewrite !q_lt_false. intros Hyx Hzy.
    by apply (Qle_trans _ y).
  - intros l. apply merge_sort_Permutation.
  - intros l i j a b x y Hij Ha Hb Hx Hy. apply q_lt_false.
    destruct (decide (i = j)) as [->|Hne].
    + assert (a = b) as -> by congruence.
      assert (x = y) as -> by congruence. apply Qle_refl.
    + pose proof (StronglySorted_merge_sort (Rational.key_le l)
                    (seq 0 (length l))) as Hs.
      pose proof (StronglySorted_lookup _ _ i j a b Hs ltac:(lia) Ha Hb)
        as Hab.
      unfold Rational.key_le in Hab. apply Qle_bool_iff in Hab.
      by rewrite (nth_lookup_Some _ _ _ _ Hx), (nth_lookup_Some _ _ _ _ Hy)
        in Hab.
Qed.

(** ** The chunker rejects no configuration *)

Lemma chunk_step_nonempty chunk_size overlap st sentence :
  chunks st ≠ [] ∨ current_chunk st ≠ [] ∨ split sentence ≠ [] →
  chunks (chunk_step chunk_size overlap st sentence) ≠ []
  ∨ current_chunk (chunk_step chunk_size overlap st sentence) ≠ [].
Proof.
  intros Hne. unfold chunk_step.
  destruct (_ && _); simpl.
  - left. by destruct (chunks st).
  - destruct Hne as [Hne|[Hne|Hne]]; [by left|right..].
    + by destruct (current_chunk st).
    + destruct (current_chunk st); [done|]. done.
Qed.

Lemma chunk_fold_nonempty chunk_size overlap sentences st :
  (chunks st ≠ [] ∨ current_chunk st ≠ [])
  ∨ concat (split <$> sentences) ≠ [] →
  let st' := fold_left (chunk_step chunk_size overlap) sentences st in
  chunks st' ≠ [] ∨ current_chunk st' ≠ [].
Proof.
  revert st. induction sentences as [|s sentences IH]; intros st Hne; simpl.
  - by destruct Hne.
  - apply IH.
    change (concat (split <$> s :: sentences))
      with (split s ++ concat (split <$> sentences)) in Hne.
    destruct (decide (concat (split <$> sentences) = [])) as [Hnil|Hrest];
      [|by right].
    left. apply chunk_step_nonempty.
    destruct Hne as [[?|?]|Hne]; [by left|right; by left|].
    right; right. rewrite Hnil, app_nil_r in Hne. done.
Qed.

(** Claim C6, amended. The chunker rejects no configuration: for every text,
    chunk size and overlap, [overlap >= chunk_size] included, it returns a
    chunk sequence, and the sequence is not empty when the text has a
    word. *)
Theorem split_text_intelligent_never_rejects t chunk_size overlap :
  ∃ cs,
    split_text_intelligent_call t chunk_size overlap = Returns cs
    ∧ (split t ≠ [] → cs ≠ []).
Proof.
  eexists. split; [done|]. intros Hwords.
  unfold split_text_intelligent.
  destruct (chunk_fold_nonempty chunk_size overlap (re_split_sentences t)
              chunker_init) as [Hch|Hcur].
  - right. by rewrite re_split_sentences_words.
  - destruct (truthy _); [|done].
    by destruct (chunks _).
  - apply truthy_true in Hcur as ->. by destruct (chunks _).
Qed.

(** Claim C6 as stated fails: with [overlap = chunk_size = 2] the chunker
    returns two chunks and raises nothing. *)
Lemma split_text_intelligent_rejects_counterexample :
  ¬ (∀ t chunk_size overlap,
       chunk_size <= overlap →
       ∃ e, split_text_intelligent_call t chunk_size overlap = Raises e)
  ∧ split_text_intelligent_call (str "a b. c d.") 2 2
    = Returns [str "a b."; str "a b. c d."].
Proof.
  split; [|reflexivity].
  intros Hrej. destruct (Hrej (str "a b. c d.") 2 2) as [e He]; [lia|].
  vm_compute in He. discriminate He.
Qed.

(** ** The chunker with no overlap *)

(** Claim C3 fails at [overlap = 0]: the slice [current_chunk[-0:]] is the
    whole closed chunk, so the new chunk starts with all the words of the
    closed one, where the chunker of the specification starts it with
    none. *)
Theorem overlap_zero_seeds_whole_chunk :
  split_text_intelligent (str "a b. c d.") 2 0
  = [str "a b."; str "a b. c d."]
  ∧ chunker_spec (str "a b. c d.") 2 0 = [str "a b."; str "c d."].
Proof. split; reflexivity. Qed.

(** Claim C5 fails at [overlap = 0]: the words of the chunks, none left
    out, repeat the first chunk and are not the words of the text. *)
Theorem overlap_zero_breaks_coverage :
  non_overlap_words 0 None (split_text_intelligent (str "a b. c d.") 2 0)
  = [str "a"; str "b."; str "a"; str "b."; str "c"; str "d."]
  ∧ split (str "a b. c d.") = [str "a"; str "b."; str "c"; str "d."].
Proof. split; reflexivity. Qed.

(** ** Claims on the store and on retrieval *)

Section Claims.
Context `{Externals}.

(** Claim C2. When the session the call names is absent from the store or
    has no chunk, [retrieve_chunks] returns the one-element list
    ["No document uploaded yet."], for every query and [top_k]: not the
    empty list, and no exception. *)
Theorem retrieve_chunks_sentinel query session_id top_k st :
  no_chunks st session_id →
  retrieve_chunks query session_id top_k st
  = Returns [str "No document uploaded yet."]
  ∧ retrieve_chunks query session_id top_k st ≠ Returns []
  ∧ ∀ e, retrieve_chunks query session_id top_k st ≠ Raises e.
Proof.
  intros Hno. rewrite (retrieve_chunks_no_chunks _ _ _ _ Hno).
  split_and!; [done|done|]. by intros e.
Qed.

(** Claim C4 fails when a row cannot be unpickled:
    [load_session_from_database] has appended the text of the row before
    [pickle.loads] raises, and the session is left with one text, no
    vector and no metadata. *)
Theorem load_failure_breaks_store_inv sid row rows :
  pickle_loads (embedding_vector row) = None →
  let st' := run_ops [Rehydrate sid (row :: rows)] empty_store in
  session_documents st' !! sid = Some [chunk_text row]
  ∧ session_embeddings st' !! sid = Some []
  ∧ session_metadata st' !! sid = Some []
  ∧ ¬ store_inv st'.
Proof.
  intros Hrow. simpl. rewrite (load_failure_state sid row rows Hrow).
  simpl. rewrite !lookup_singleton_eq. split_and!; [done..|].
  intros (_ & _ & Hlen).
  destruct (Hlen sid [chunk_text row] [] []) as [Hlen' _];
    [simpl; by rewrite lookup_singleton_eq..|].
  done.
Qed.

(** Claim C7, amended to a non-empty session id. For every session id [s]
    other than the empty string, [clear_session_documents] removes [s]
    from the three dictionaries and raises nothing, a second clear and a
    clear of an absent session change nothing, and after it
    [get_session_stats(s)] has [total_chunks = 0] and
    [unique_documents = 0] and [retrieve_chunks] on [s] returns the
    sentinel. *)
Theorem clear_session_documents_meets_spec s :
  s ≠ EmptyString → clear_spec s.
Proof.
  intros Hs st query top_k. simpl.
  split_and!; try done; try apply dict_discard_gone.
  - f_equal; apply dict_discard_absent, dict_discard_gone.
  - intros Hd He Hm. destruct st as [d e m]. simpl in *.
    f_equal; by apply dict_discard_absent.
  - unfold get_session_stats, id_truthy. simpl.
    rewrite decide_False by done.
    rewrite decide_False; [done|].
    apply not_elem_of_dom, dict_discard_gone.
  - apply retrieve_chunks_no_chunks. left. apply dict_discard_gone.
Qed.


End Claims.

(** ** The statements above at concrete inputs, over the rationals *)

(** The empty store has no session ["s1"]. *)
Lemma retrieve_chunks_sentinel_witness :
  @no_chunks Rational.externals empty_store (Some "s1"%string)
  ∧ @retrieve_chunks Rational.externals (str "anything")
      (Some "s1"%string) 5 empty_store
    = Returns [str "No document uploaded yet."].
Proof.
  assert (@no_chunks Rational.externals empty_store (Some "s1"%string))
    as Hno by (left; reflexivity).
  split; [exact Hno|].
  exact (proj1 (@retrieve_chunks_sentinel Rational.externals
                  (str "anything") (Some "s1"%string) 5 empty_store Hno)).
Defined.

(** A row with the empty byte string as its vector. *)
Lemma load_failure_breaks_store_inv_witness :
  @pickle_loads Rational.externals (embedding_vector Rational.corrupt_row)
  = None
  ∧ ¬ @store_inv Rational.externals
        (run_ops [Rehydrate "s"%string [Rational.corrupt_row]] empty_store).
Proof.
  split; [reflexivity|].
  apply (@load_failure_breaks_store_inv Rational.externals "s"%string
           Rational.corrupt_row []).
  reflexivity.
Defined.

(** The session id ["s1"]. *)
Lemma clear_session_documents_meets_spec_witness :
  "s1"%string ≠ EmptyString ∧ @clear_spec Rational.externals "s1"%string.
Proof.
  split; [discriminate|].
  apply (@clear_session_documents_meets_spec Rational.externals).
  discriminate.
Defined.

(** Claim C7 as stated fails for the empty string: [if session_id:] takes
    it for no id, and the call returns the statistics of all sessions,
    here of one session with two chunks. *)
Lemma clear_spec_empty_id_counterexample :
  ¬ @clear_spec Rational.externals EmptyString
  ∧ @get_session_stats Rational.externals (Some EmptyString)
      (clear_session_documents EmptyString Rational.store_two).2
    = Returns (AllStats 1 2 {[ "s"%string ]}).
Proof.
  split; [|reflexivity].
  intros Hspec.
  destruct (Hspec Rational.store_two (str "anything") 5)
    as (_ & _ & _ & _ & _ & _ & Hstats & _).
  vm_compute in Hstats. discriminate Hstats.
Qed.


(** Session ["s"] of [store_three] holds three chunks. *)
Lemma holds_chunks_store_three :
  @holds_chunks Rational.externals Rational.store_three "s"%string
    [str "alpha"; str "alpha again"; str "beta"]
    [[1; 0; 0]; [1; 1 # 10; 0]; [0; 9 # 10; 0]]%Q.
Proof.
  split_and!; [reflexivity|reflexivity| |reflexivity].
  eexists. split; reflexivity.
Defined.




(** ** Examples *)

Example split_example :
  split (str "  a b.  c ") = [str "a"; str "b."; str "c"].
Proof. reflexivity. Qed.

Example re_split_sentences_example :
  re_split_sentences (str "a b.  c d! ") = [str "a b."; str "c d!"; str ""].
Proof. reflexivity. Qed.

Example clean_text_example :
  clean_text (str " a  b
c ") = str "a b c".
Proof. reflexivity. Qed.

Example split_text_intelligent_example :
  split_text_intelligent (str "a b. c d. e f.") 3 1
  = [str "a b."; str "b. c d."; str "d. e f."].
Proof. reflexivity. Qed.

(** The similarities are 1, 11/10 and 9/10. The second chunk is picked
    first; the third is picked next, with score 903/1000 against 7/10 for
    the first chunk, which is more relevant but repeats the second. *)
Example retrieve_chunks_example :
  @retrieve_chunks Rational.externals (str "ab") (Some "s"%string) 2
    Rational.store_three
  = Returns [str "alpha again"; str "beta"].
Proof. reflexivity. Qed.

Example ingest_example :
  (@process_document_text_with_storage Rational.externals
     (str "a b. c d.") "d1" "s" "f.txt" empty_store).2
  = {| session_documents := {[ "s"%string := [str "a b. c d."] ]};
       session_embeddings := {[ "s"%string := [[1; 1; 1]%Q] ]};
       session_metadata :=
         {[ "s"%string :=
              [{| doc_id := "d1"; doc_name := "f.txt"; chunk_id := 0;
                  char_count := 9 |}] ]} |}.
Proof. reflexivity. Qed.

(** * More of the code *)

(** ** The simple splitter [split_text] *)

Lemma py_slice_take_drop {A} (a c : nat) (l : list A) :
  py_slice (Z.of_nat a) (Z.of_nat a + Z.of_nat c) l = take c (drop a l).
Proof.
  unfold py_slice, clamp_index, len.
  destruct (Z.ltb_spec (Z.of_nat a) 0); [lia|].
  destruct (Z.ltb_spec (Z.of_nat a + Z.of_nat c) 0); [lia|].
  destruct (decide (length l <= a)%nat) as [Hge|Hlt].
  - rewrite (drop_ge l a) by done.
    rewrite drop_ge by lia. by rewrite !take_nil.
  - replace (Z.to_nat (Z.of_nat a `min` Z.of_nat (length l))) with a by lia.
    destruct (decide (c <= length l - a)%nat).
    + f_equal. lia.
    + rewrite !take_ge; [done|rewrite length_drop; lia..].
Qed.

Lemma pieces_concat {A} (c m : nat) (l : list A) :
  (length l <= m * c)%nat →
  concat ((fun k => take c (drop (k * c) l)) <$> seq 0 m) = l.
Proof.
  revert l. induction m as [|m IH]; intros l Hlen.
  - by destruct l; [|simpl in Hlen; lia].
  - simpl. rewrite <- fmap_S_seq, <- list_fmap_compose.
    rewrite (list_fmap_ext _ (fun k => take c (drop (k * c) (drop c l)))).
    + rewrite IH by (rewrite length_drop; lia). apply take_drop.
    + intros i k _. simpl. rewrite drop_drop. do 2 f_equal.
Qed.

(** The number of chunks: [ceil(n / c)]. *)
Lemma chunk_count_bounds (n c : nat) :
  (1 <= c)%nat →
  let m := Z.to_nat ((Z.of_nat n + Z.of_nat c - 1) / Z.of_nat c) in
  (n <= m * c)%nat ∧ (m * c < n + c)%nat.
Proof.
  intros Hc m.
  pose proof (Z.mul_div_le (Z.of_nat n + Z.of_nat c - 1) (Z.of_nat c)
                ltac:(lia)) as Hle.
  pose proof (Z.mul_succ_div_gt (Z.of_nat n + Z.of_nat c - 1) (Z.of_nat c)
                ltac:(lia)) as Hgt.
  assert (0 <= (Z.of_nat n + Z.of_nat c - 1) / Z.of_nat c) as Hq
    by (apply Z.div_pos; lia).
  subst m. split; nia.
Qed.

(** What [split_text] returns as lists of words: the word sequence cut
    every [c] words. *)
Lemma split_text_pieces t (c : nat) :
  (1 <= c)%nat →
  let W := split t in
  let m := Z.to_nat ((len W + Z.of_nat c - 1) / Z.of_nat c) in
  split_text t (Z.of_nat c)
  = Returns (join <$> ((fun k => take c (drop (k * c) W)) <$> seq 0 m)).
Proof.
  intros Hc W m. unfold split_text, py_range. fold W.
  destruct (Z.eqb_spec (Z.of_nat c) 0); [lia|].
  destruct (Z.ltb_spec 0 (Z.of_nat c)); [|lia]. simpl.
  replace (len W - 0 + Z.of_nat c - 1) with (len W + Z.of_nat c - 1) by lia.
  fold m. f_equal. rewrite <- !list_fmap_compose.
  apply list_fmap_ext. intros i k _. simpl. f_equal.
  replace (0 + Z.of_nat k * Z.of_nat c) with (Z.of_nat (k * c)) by lia.
  apply py_slice_take_drop.
Qed.

Lemma split_join_pieces (P : list (list text)) :
  Forall (Forall is_word) P → split <$> (join <$> P) = P.
Proof.
  induction 1 as [|p P Hp _ IH]; [done|].
  rewrite !fmap_cons, split_join by done. by rewrite IH.
Qed.

(** X1. For [chunk_size >= 1], [split_text] returns without raising; the
    words of its chunks, in order, are exactly the words of the text, none
    lost and none repeated; there are [ceil(n / chunk_size)] chunks for [n]
    words; every chunk has between one and [chunk_size] words, and every
    chunk but the last has exactly [chunk_size]. *)
Theorem split_text_partition t chunk_size :
  1 <= chunk_size →
  ∃ cs,
    split_text t chunk_size = Returns cs
    ∧ concat (split <$> cs) = split t
    ∧ len cs = (len (split t) + chunk_size - 1) / chunk_size
    ∧ Forall (fun c => 1 <= len (split c) <= chunk_size) cs
    ∧ ∀ i c, cs !! i = Some c → (S i < length cs)%nat →
             len (split c) = chunk_size.
Proof.
  intros Hcs.
  assert (∃ c, chunk_size = Z.of_nat c ∧ (1 <= c)%nat) as (c & -> & Hc)
    by (exists (Z.to_nat chunk_size); lia).
  rewrite split_text_pieces by done.
  set (W := split t).
  set (m := Z.to_nat ((len W + Z.of_nat c - 1) / Z.of_nat c)).
  set (P := (fun k => take c (drop (k * c) W)) <$> seq 0 m).
  pose proof (chunk_count_bounds (length W) c Hc) as [Hlo Hhi].
  fold (len W) in Hlo, Hhi. fold m in Hlo, Hhi.
  assert (Forall (Forall is_word) P) as HP.
  { apply Forall_fmap, Forall_forall. intros k _. simpl.
    apply Forall_take, Forall_drop, split_words. }
  assert (length P = m) as HlenP by (unfold P; by rewrite length_fmap, length_seq).
  assert (∀ k p, P !! k = Some p →
            p = take c (drop (k * c) W) ∧ (k < m)%nat) as Hlook.
  { intros k p. unfold P. rewrite list_lookup_fmap.
    destruct (seq 0 m !! k) as [k'|] eqn:Hk; [|done].
    apply lookup_seq in Hk as [-> Hk]. simpl. by intros [= <-]. }
  eexists. split_and!; [done| | | |].
  - rewrite split_join_pieces by done. by apply pieces_concat.
  - unfold len. rewrite length_fmap, HlenP. unfold m.
    assert (0 <= (len W + Z.of_nat c - 1) / Z.of_nat c)
      by (apply Z.div_pos; unfold len; lia).
    unfold len in *. lia.
  - apply Forall_forall. intros x Hx.
    apply list_elem_of_fmap in Hx as (p & -> & Hp).
    apply list_elem_of_lookup in Hp as [k Hk].
    destruct (Hlook k p Hk) as [-> Hkm].
    rewrite split_join by (by apply Forall_take, Forall_drop, split_words).
    unfold len. rewrite length_take, length_drop. nia.
  - intros i x Hx Hlast. rewrite length_fmap, HlenP in Hlast.
    rewrite list_lookup_fmap in Hx.
    destruct (P !! i) as [p|] eqn:Hp; [|done]. injection Hx as <-.
    destruct (Hlook i p Hp) as [-> Hkm].
    rewrite split_join by (by apply Forall_take, Forall_drop, split_words).
    unfold len. rewrite length_take, length_drop. nia.
Qed.

(** X2. [split_text] with [chunk_size = 0] raises [ValueError] (the step
    of [range]); with a negative [chunk_size] it raises nothing and returns
    no chunk, however many words the text has. *)
Theorem split_text_non_positive t chunk_size :
  chunk_size <= 0 →
  split_text t chunk_size
  = if chunk_size =? 0 then Raises ValueError else Returns [].
Proof.
  intros Hcs. unfold split_text, py_range.
  destruct (Z.eqb_spec chunk_size 0); [done|].
  destruct (Z.ltb_spec 0 chunk_size); [lia|]. simpl.
  assert ((0 - len (split t) - chunk_size - 1) / - chunk_size <= 0) as Hq.
  { apply Z.lt_succ_r, Z.div_lt_upper_bound; unfold len; lia. }
  replace (Z.to_nat _) with 0%nat by lia. done.
Qed.

(** Five words cut every two. *)
Lemma split_text_partition_witness :
  1 <= 2
  ∧ ∃ cs,
      split_text (str "a b c d e") 2 = Returns cs
      ∧ concat (split <$> cs) = split (str "a b c d e")
      ∧ len cs = 3.
Proof.
  split; [lia|].
  destruct (split_text_partition (str "a b c d e") 2 ltac:(lia))
    as (cs & Hcs & Hwords & Hlen & _).
  exists cs. split_and!; [exact Hcs|exact Hwords|exact Hlen].
Defined.

(** Five words and [chunk_size = -2]. *)
Lemma split_text_non_positive_witness :
  -2 <= 0 ∧ split_text (str "a b c d e") (-2) = Returns [].
Proof.
  split; [lia|].
  exact (split_text_non_positive (str "a b c d e") (-2) ltac:(lia)).
Defined.

(** ** [clean_text] *)

Lemma isspace_space : isspace space = true.
Proof. reflexivity. Qed.

Lemma collapse_spaces_Forall (P : char → Prop) in_run s :
  P space → Forall (fun c => isspace c = false → P c) s →
  Forall P (collapse_spaces in_run s).
Proof.
  intros Hsp. revert in_run.
  induction s as [|c s IH]; intros in_run Hs; simpl; [constructor|].
  inversion_clear Hs as [|?? Hc Hs'].
  destruct (isspace c) eqn:Hspace.
  - destruct in_run; [by apply IH|]. constructor; [done|by apply IH].
  - constructor; [by apply Hc|by apply IH].
Qed.

Lemma collapse_spaces_only_space in_run s :
  Forall (fun c => isspace c = true → c = space) (collapse_spaces in_run s).
Proof.
  apply collapse_spaces_Forall; [done|].
  apply Forall_forall. intros c _ Hc Hc'. congruence.
Qed.

Lemma replace_char_Forall (P : char → Prop) c r s :
  Forall P r → Forall P s → Forall P (replace_char c r s).
Proof.
  intros Hr. unfold replace_char.
  induction 1 as [|d s Hd _ IH]; simpl; [constructor|].
  apply Forall_app. split; [|done].
  destruct (d =? c)%N; [done|by constructor].
Qed.

Lemma replace_char_gone c r s :
  Forall (fun d => d ≠ c) r → Forall (fun d => d ≠ c) (replace_char c r s).
Proof.
  intros Hr. unfold replace_char.
  induction s as [|d s IH]; simpl; [constructor|].
  apply Forall_app. split; [|done].
  destruct (N.eqb_spec d c); [done|by constructor].
Qed.

Lemma replace_char_id c r s :
  Forall (fun d => d ≠ c) s → replace_char c r s = s.
Proof.
  unfold replace_char. induction 1 as [|d s Hd _ IH]; simpl; [done|].
  destruct (N.eqb_spec d c); [done|]. simpl. by rewrite IH.
Qed.

Lemma lstrip_Forall (P : char → Prop) s : Forall P s → Forall P (lstrip s).
Proof.
  induction 1 as [|c s Hc Hs IH]; simpl; [constructor|].
  destruct (isspace c); [done|by constructor].
Qed.

Lemma lstrip_head s c : head (lstrip s) = Some c → isspace c = false.
Proof.
  induction s as [|d s IH]; simpl; [done|].
  destruct (isspace d) eqn:Hd; [done|]. simpl. congruence.
Qed.

Lemma lstrip_snoc s c :
  isspace c = false → lstrip (s ++ [c]) = lstrip s ++ [c].
Proof.
  intros Hc. induction s as [|d s IH]; simpl.
  - by rewrite Hc.
  - by destruct (isspace d).
Qed.

Lemma strip_Forall (P : char → Prop) s : Forall P s → Forall P (strip s).
Proof.
  intros Hs. unfold strip.
  apply Forall_reverse, lstrip_Forall, Forall_reverse, lstrip_Forall, Hs.
Qed.

Lemma strip_head s c : head (strip s) = Some c → isspace c = false.
Proof.
  unfold strip. destruct (lstrip s) as [|d v] eqn:Hv; [done|].
  assert (isspace d = false) as Hd by (apply (lstrip_head s); by rewrite Hv).
  rewrite reverse_cons, lstrip_snoc, reverse_app by done. simpl.
  congruence.
Qed.

Lemma strip_last s c : last (strip s) = Some c → isspace c = false.
Proof.
  unfold strip. rewrite last_reverse. apply lstrip_head.
Qed.

Lemma clean_text_chars t :
  Forall (fun c => is_control c = false
                   ∧ is_ligature c = false
                   ∧ (isspace c = true → c = space)) (clean_text t).
Proof.
  unfold clean_text.
  apply strip_Forall.
  set (u := filter _ (collapse_spaces false t)).
  assert (Forall (fun c => is_control c = false
                           ∧ (isspace c = true → c = space)) u) as Hu.
  { apply Forall_forall. intros c [Hc Hin]%list_elem_of_filter.
    split; [done|].
    pose proof (collapse_spaces_only_space false t) as Hsp.
    rewrite Forall_forall in Hsp. by apply Hsp. }
  assert (Forall (fun d => d ≠ 64257%N) (str "fi")) as Hfi
    by (repeat constructor; discriminate).
  assert (Forall (fun d => d ≠ 64257%N) (str "fl")) as Hfl'
    by (repeat constructor; discriminate).
  assert (Forall (fun d => d ≠ 64258%N) (str "fl")) as Hfl
    by (repeat constructor; discriminate).
  assert (∀ r, r = str "fi" ∨ r = str "fl" →
               Forall (fun c => is_control c = false
                                ∧ (isspace c = true → c = space)) r) as Hr.
  { intros r [-> | ->]; repeat constructor; discriminate. }
  pose proof (replace_char_gone 64257%N (str "fi") u Hfi) as H1.
  pose proof (replace_char_Forall _ 64258%N (str "fl") _ Hfl' H1) as H1'.
  pose proof (replace_char_gone 64258%N (str "fl")
                (replace_char 64257%N (str "fi") u) Hfl) as H2.
  pose proof (replace_char_Forall _ 64257%N (str "fi") _
                (Hr _ (or_introl eq_refl)) Hu) as H3.
  pose proof (replace_char_Forall _ 64258%N (str "fl") _
                (Hr _ (or_intror eq_refl)) H3) as H4.
  rewrite Forall_forall in H1', H2, H4. apply Forall_forall. intros c Hc.
  destruct (H4 c Hc) as [Hctl Hsp]. split_and!; [done| |done].
  unfold is_ligature.
  destruct (N.eqb_spec c 64257); [by apply H1' in Hc|].
  destruct (N.eqb_spec c 64258); [by apply H2 in Hc|]. done.
Qed.

(** X3. Whatever the text, [clean_text] returns a text with no character
    of the control class, with neither of the two ligatures, in which
    every whitespace character is a plain space, and which neither begins
    nor ends with whitespace. *)
Theorem clean_text_is_clean t :
  Forall (fun c => is_control c = false
                   ∧ is_ligature c = false
                   ∧ (isspace c = true → c = space)) (clean_text t)
  ∧ (∀ c, head (clean_text t) = Some c → isspace c = false)
  ∧ (∀ c, last (clean_text t) = Some c → isspace c = false).
Proof.
  split_and!; [apply clean_text_chars|..]; unfold clean_text.
  - apply strip_head.
  - apply strip_last.
Qed.

Lemma split_from_nonempty w s : w ≠ [] → split_from w s ≠ [].
Proof.
  revert w. induction s as [|c s IH]; intros w Hw; simpl.
  - by destruct w.
  - destruct (isspace c).
    + by destruct w.
    + apply IH. by destruct w.
Qed.

Lemma lstrip_collapse_spaces in_run s :
  lstrip (collapse_spaces in_run s) = collapse_spaces true s.
Proof.
  revert in_run. induction s as [|c s IH]; intros in_run; simpl; [done|].
  destruct (isspace c) eqn:Hc.
  - destruct in_run; simpl; apply IH.
  - simpl. by rewrite Hc.
Qed.

(** What [re.sub(r'\s+', ' ', s)] gives, read with [str.split]: the words
    of [s] joined by single spaces, and one more space when [s] ends with
    whitespace after a word. *)
Lemma collapse_spaces_join s :
  (∀ w, w ≠ [] →
        ∃ tr, (tr = [] ∨ tr = [space])
              ∧ w ++ collapse_spaces false s = join (split_from w s) ++ tr)
  ∧ ∃ tr, (tr = [] ∨ tr = [space])
          ∧ collapse_spaces true s = join (split_from [] s) ++ tr
          ∧ (split_from [] s = [] → tr = []).
Proof.
  induction s as [|c s [IH1 (tr & Htr & IH2 & IH3)]]; simpl.
  - split.
    + intros w Hw. exists []. split; [by left|]. by destruct w.
    + exists []. by split_and!; [left|..].
  - destruct (isspace c) eqn:Hc.
    + split; [|by exists tr].
      intros w Hw. apply truthy_true in Hw as Hw'. rewrite Hw', IH2.
      destruct (split_from [] s) as [|x xs] eqn:HR.
      * exists [space]. split; [by right|]. by rewrite (IH3 eq_refl).
      * exists tr. split; [done|]. simpl. by rewrite <- (assoc_L (++)).
    + split.
      * intros w Hw.
        destruct (IH1 (w ++ [c]) ltac:(by destruct w)) as (tr' & Htr' & E).
        exists tr'. split; [done|]. by rewrite <- E, <- (assoc_L (++)).
      * destruct (IH1 [c] ltac:(done)) as (tr' & Htr' & E).
        exists tr'. split_and!; [done|exact E|].
        intros Hnil. by apply split_from_nonempty in Hnil.
Qed.

Lemma join_last ws :
  Forall is_word ws → ws ≠ [] →
  ∃ x c, join ws = x ++ [c] ∧ isspace c = false.
Proof.
  induction 1 as [|w ws [Hne Hw] Hws IH]; intros Hnil; [done|]. clear Hnil.
  destruct ws as [|w' ws'].
  - simpl. destruct (exists_last Hne) as (x & c & ->). exists x, c.
    split; [done|]. apply Forall_app in Hw as [_ Hc]. by inversion Hc.
  - destruct (IH ltac:(done)) as (x & c & E & Hc).
    exists (w ++ space :: x), c. split; [|done].
    change (join (w :: w' :: ws')) with (w ++ space :: join (w' :: ws')).
    by rewrite E, <- (assoc_L (++)).
Qed.

Lemma rstrip_keeps s c :
  isspace c = false → reverse (lstrip (reverse (s ++ [c]))) = s ++ [c].
Proof.
  intros Hc. rewrite reverse_snoc. simpl. rewrite Hc.
  by rewrite reverse_cons, reverse_involutive.
Qed.

Lemma strip_collapse_spaces t :
  strip (collapse_spaces false t) = join (split t).
Proof.
  unfold strip. rewrite lstrip_collapse_spaces.
  destruct (collapse_spaces_join t) as [_ (tr & Htr & -> & Hnil)].
  fold (split t) in *. destruct (split t) as [|w ws] eqn:Hsplit.
  - by rewrite (Hnil eq_refl).
  - destruct (join_last (w :: ws)) as (x & c & -> & Hc); [|done|].
    { rewrite <- Hsplit. apply split_words. }
    destruct Htr as [-> | ->].
    + rewrite app_nil_r. by apply rstrip_keeps.
    + rewrite reverse_snoc. simpl. by apply rstrip_keeps.
Qed.

Lemma filter_all {A} (P : A → Prop) `{∀ x, Decision (P x)} (l : list A) :
  Forall P l → filter P l = l.
Proof.
  induction 1 as [|x l Hx _ IH]; [done|].
  by rewrite filter_cons_True, IH.
Qed.

(** On a text whose characters outside whitespace are neither of the
    control class nor ligatures, only the whitespace passes of
    [clean_text] do anything. *)
Lemma clean_text_plain t :
  Forall (fun c => isspace c = false →
                   is_control c = false ∧ is_ligature c = false) t →
  clean_text t = join (split t).
Proof.
  intros Ht. unfold clean_text.
  assert (Forall (fun c => is_control c = false ∧ is_ligature c = false)
            (collapse_spaces false t)) as Hu.
  { apply collapse_spaces_Forall; [done|]. exact Ht. }
  rewrite (filter_all (fun c => is_control c = false))
    by (eapply Forall_impl; [exact Hu|]; by intros c [? _]).
  assert (∀ k, (k = 64257 ∨ k = 64258)%N →
               Forall (fun d => d ≠ k) (collapse_spaces false t)) as Hk.
  { intros k Hk. eapply Forall_impl; [exact Hu|].
    intros c [_ Hlig] ->. by destruct Hk as [-> | ->]. }
  rewrite (replace_char_id 64257%N) by (apply Hk; auto).
  rewrite (replace_char_id 64258%N) by (apply Hk; auto).
  apply strip_collapse_spaces.
Qed.

(** X4. On a text in which every character that is not whitespace is
    neither of the control class nor one of the two ligatures,
    [clean_text] returns the words of the text joined by single spaces:
    it keeps the words as [str.split] reads them, and cleaning a second
    time changes nothing. *)
Theorem clean_text_normal_form t :
  Forall (fun c => isspace c = false →
                   is_control c = false ∧ is_ligature c = false) t →
  clean_text t = join (split t)
  ∧ split (clean_text t) = split t
  ∧ clean_text (clean_text t) = clean_text t.
Proof.
  intros Ht. pose proof (clean_text_plain t Ht) as E.
  assert (split (clean_text t) = split t) as Hsplit.
  { rewrite E. apply split_join, split_words. }
  split_and!; [done..|].
  rewrite (clean_text_plain (clean_text t)).
  - by rewrite Hsplit.
  - eapply Forall_impl; [apply clean_text_chars|].
    by intros c (? & ? & _) _.
Qed.

(** A text with leading, repeated and trailing whitespace. *)
Lemma clean_text_normal_form_witness :
  Forall (fun c => isspace c = false →
                   is_control c = false ∧ is_ligature c = false)
    (str "  a   b  ")
  ∧ clean_text (str "  a   b  ") = str "a b".
Proof.
  assert (Forall (fun c => isspace c = false →
                           is_control c = false ∧ is_ligature c = false)
            (str "  a   b  ")) as Ht.
  { repeat constructor. }
  split; [exact Ht|].
  destruct (clean_text_normal_form _ Ht) as (-> & _). reflexivity.
Defined.

(** ** Ingestion and rehydration: what is appended *)

Section Appends.
Context `{Externals}.

Lemma store_chunks_spec doc_id sid doc_name cs idx st d e m :
  session_documents st !! sid = Some d →
  session_embeddings st !! sid = Some e →
  session_metadata st !! sid = Some m →
  store_chunks doc_id sid doc_name idx cs st
  = (Returns (),
     {| session_documents := <[sid := d ++ cs]> (session_documents st);
        session_embeddings :=
          <[sid := e ++ (encode <$> cs)]> (session_embeddings st);
        session_metadata :=
          <[sid := m ++ chunk_metadata doc_id doc_name idx cs]>
            (session_metadata st) |}).
Proof.
  revert idx st d e m. induction cs as [|c cs IH]; intros idx st d e m Hd He Hm.
  - simpl. rewrite !app_nil_r, !insert_id by done. by destruct st.
  - cbn [store_chunks].
    unfold and_then at 1. unfold append_document, dict_append. rewrite Hd.
    unfold and_then at 1. unfold append_embedding, dict_append.
    cbn [session_documents session_embeddings session_metadata]. rewrite He.
    unfold and_then at 1. unfold append_metadata, dict_append.
    cbn [session_documents session_embeddings session_metadata]. rewrite Hm.
    erewrite IH by (cbn; apply lookup_insert_eq).
    cbn [session_documents session_embeddings session_metadata
         chunk_metadata fmap list_fmap].
    by rewrite !insert_insert_eq, <- !(assoc_L (++)).
Qed.

(** After the initialisation the session has its three lists: those it
    had, or three empty ones. *)
Lemma init_session_spec sid st :
  store_inv st →
  let st1 := (init_session sid st).2 in
  (init_session sid st).1 = Returns ()
  ∧ session_documents st1 !! sid = Some (texts_of st sid)
  ∧ session_embeddings st1 !! sid = Some (vectors_of st sid)
  ∧ session_metadata st1 !! sid = Some (metadata_of st sid)
  ∧ ∀ s', sid ≠ s' → session_of st1 s' = session_of st s'.
Proof.
  intros (Hde & Hdm & _). unfold init_session, texts_of, vectors_of,
    metadata_of, session_of.
  case_decide as Hin; simpl.
  - pose proof Hin as Hin'. rewrite Hde in Hin. rewrite Hdm in Hin'.
    pose proof Hin' as Hin''. rewrite <- Hdm in Hin''.
    apply elem_of_dom in Hin as [e ->], Hin' as [m ->], Hin'' as [d ->].
    done.
  - pose proof Hin as Hin'. rewrite Hde in Hin. rewrite Hdm in Hin'.
    pose proof Hin' as Hin''. rewrite <- Hdm in Hin''.
    apply not_elem_of_dom in Hin as ->, Hin' as ->, Hin'' as ->.
    rewrite !lookup_insert_eq. split_and!; [done..|].
    intros s' Hne. by rewrite !lookup_insert_ne.
Qed.

Lemma load_rows_spec sid rows vs st d e m :
  Forall2 (fun r v => pickle_loads (embedding_vector r) = Some v) rows vs →
  session_documents st !! sid = Some d →
  session_embeddings st !! sid = Some e →
  session_metadata st !! sid = Some m →
  load_rows sid rows st
  = (Returns (),
     {| session_documents :=
          <[sid := d ++ (chunk_text <$> rows)]> (session_documents st);
        session_embeddings := <[sid := e ++ vs]> (session_embeddings st);
        session_metadata :=
          <[sid := m ++ (row_metadata <$> rows)]> (session_metadata st) |}).
Proof.
  intros Hrows. revert st d e m.
  induction Hrows as [|r v rows vs Hv _ IH]; intros st d e m Hd He Hm.
  - simpl. rewrite !app_nil_r, !insert_id by done. by destruct st.
  - cbn [load_rows].
    unfold and_then at 1. unfold append_document, dict_append. rewrite Hd.
    unfold and_then at 1. unfold lift, deserialize_embedding. rewrite Hv.
    unfold and_then at 1. unfold append_embedding, dict_append.
    cbn [session_documents session_embeddings session_metadata]. rewrite He.
    unfold and_then at 1. unfold append_metadata, dict_append.
    cbn [session_documents session_embeddings session_metadata]. rewrite Hm.
    erewrite IH by (cbn; apply lookup_insert_eq).
    cbn [session_documents session_embeddings session_metadata
         fmap list_fmap].
    by rewrite !insert_insert_eq, <- !(assoc_L (++)).
Qed.

(** A row that cannot be unpickled stops the loop after its text has
    been appended. *)
Lemma load_rows_failure sid good bad rest vs st d e m :
  Forall2 (fun r v => pickle_loads (embedding_vector r) = Some v) good vs →
  pickle_loads (embedding_vector bad) = None →
  session_documents st !! sid = Some d →
  session_embeddings st !! sid = Some e →
  session_metadata st !! sid = Some m →
  load_rows sid (good ++ bad :: rest) st
  = (Raises UnpicklingError,
     {| session_documents :=
          <[sid := d ++ (chunk_text <$> good) ++ [chunk_text bad]]>
            (session_documents st);
        session_embeddings := <[sid := e ++ vs]> (session_embeddings st);
        session_metadata :=
          <[sid := m ++ (row_metadata <$> good)]> (session_metadata st) |}).
Proof.
  intros Hrows Hbad. revert st d e m.
  induction Hrows as [|r v rows vs Hv _ IH]; intros st d e m Hd He Hm.
  - cbn [app load_rows fmap list_fmap].
    unfold and_then at 1. unfold append_document, dict_append. rewrite Hd.
    unfold and_then at 1. unfold lift, deserialize_embedding. rewrite Hbad.
    cbn [session_documents session_embeddings session_metadata].
    rewrite !app_nil_r.
    by rewrite (insert_id (session_embeddings st)),
      (insert_id (session_metadata st)).
  - cbn [app load_rows].
    unfold and_then at 1. unfold append_document, dict_append. rewrite Hd.
    unfold and_then at 1. unfold lift, deserialize_embedding. rewrite Hv.
    unfold and_then at 1. unfold append_embedding, dict_append.
    cbn [session_documents session_embeddings session_metadata]. rewrite He.
    unfold and_then at 1. unfold append_metadata, dict_append.
    cbn [session_documents session_embeddings session_metadata]. rewrite Hm.
    erewrite IH by (cbn; apply lookup_insert_eq).
    cbn [session_documents session_embeddings session_metadata
         fmap list_fmap].
    by rewrite !insert_insert_eq, <- !(assoc_L (++)).
Qed.

Lemma rows_loadable_vectors rows :
  rows_loadable rows →
  ∃ vs, Forall2 (fun r v => pickle_loads (embedding_vector r) = Some v)
          rows vs.
Proof.
  induction 1 as [|r rows [v Hv] _ [vs IH]].
  - by exists [].
  - exists (v :: vs). by constructor.
Qed.

Lemma process_document_spec t doc_id sid doc_name st :
  store_inv st →
  let cs :=
    split_text_intelligent (clean_text t) default_chunk_size default_overlap in
  let st' := (process_document_text_with_storage t doc_id sid doc_name st).2 in
  (process_document_text_with_storage t doc_id sid doc_name st).1 = Returns ()
  ∧ session_documents st' !! sid = Some (texts_of st sid ++ cs)
  ∧ session_embeddings st' !! sid
    = Some (vectors_of st sid ++ (encode <$> cs))
  ∧ session_metadata st' !! sid
    = Some (metadata_of st sid ++ chunk_metadata doc_id doc_name 0 cs).
Proof.
  intros Hinv. cbv zeta.
  destruct (init_session_spec sid st Hinv) as (Hr & Hd & He & Hm & _).
  unfold process_document_text_with_storage, and_then.
  destruct (init_session sid st) as [r st1]. simpl in Hr, Hd, He, Hm.
  subst r. rewrite (store_chunks_spec _ _ _ _ _ _ _ _ _ Hd He Hm).
  simpl. by rewrite !lookup_insert_eq.
Qed.

(** X5. On a store whose three dictionaries agree, ingestion raises
    nothing and appends to the session, in this order, the chunks of the
    cleaned text, their embeddings, and for each chunk the document id,
    the document name, its position in this document counted from 0 and
    its number of characters. A session that was absent is created. *)
Theorem process_document_appends t doc_id sid doc_name st :
  store_inv st →
  let cs :=
    split_text_intelligent (clean_text t) default_chunk_size default_overlap in
  let st' := (process_document_text_with_storage t doc_id sid doc_name st).2 in
  (process_document_text_with_storage t doc_id sid doc_name st).1 = Returns ()
  ∧ texts_of st' sid = texts_of st sid ++ cs
  ∧ vectors_of st' sid = vectors_of st sid ++ (encode <$> cs)
  ∧ metadata_of st' sid
    = metadata_of st sid ++ chunk_metadata doc_id doc_name 0 cs
  ∧ sid ∈ dom (session_documents st').
Proof.
  intros Hinv.
  destruct (process_document_spec t doc_id sid doc_name st Hinv)
    as (Hr & Hd & He & Hm).
  cbv zeta. unfold texts_of, vectors_of, metadata_of at 1.
  rewrite Hd, He. unfold metadata_of at 1. rewrite Hm.
  split_and!; [done..|]. apply elem_of_dom. by rewrite Hd.
Qed.

Lemma load_session_spec sid rows st :
  store_inv st → rows_loadable rows →
  let st' := (load_session_from_database sid rows st).2 in
  (load_session_from_database sid rows st).1 = Returns ()
  ∧ texts_of st' sid = texts_of st sid ++ (chunk_text <$> rows)
  ∧ (∃ vs,
       Forall2 (fun r v => pickle_loads (embedding_vector r) = Some v) rows vs
       ∧ vectors_of st' sid = vectors_of st sid ++ vs)
  ∧ metadata_of st' sid = metadata_of st sid ++ (row_metadata <$> rows).
Proof.
  intros Hinv Hrows. cbv zeta.
  destruct (rows_loadable_vectors rows Hrows) as [vs Hvs].
  destruct (init_session_spec sid st Hinv) as (Hr & Hd & He & Hm & _).
  unfold load_session_from_database, and_then.
  destruct (init_session sid st) as [r st1]. simpl in Hr, Hd, He, Hm.
  subst r. rewrite (load_rows_spec _ _ _ _ _ _ _ Hvs Hd He Hm).
  cbn [fst snd].
  split_and!; [done| |exists vs; split; [done|]|].
  - unfold texts_of at 1. simpl. by rewrite lookup_insert_eq.
  - unfold vectors_of at 1. simpl. by rewrite lookup_insert_eq.
  - unfold metadata_of at 1. simpl. by rewrite lookup_insert_eq.
Qed.

(** X6. On a store whose three dictionaries agree, and with rows whose
    vectors can all be unpickled, [load_session_from_database] raises
    nothing and appends to the session the texts of the rows, the
    unpickled vectors and the metadata of the rows, in the order of the
    rows. It appends to what the session holds: it does not replace it, so
    loading the same rows twice stores every chunk twice. *)
Theorem load_session_appends sid rows st :
  store_inv st → rows_loadable rows →
  let st' := (load_session_from_database sid rows st).2 in
  (load_session_from_database sid rows st).1 = Returns ()
  ∧ texts_of st' sid = texts_of st sid ++ (chunk_text <$> rows)
  ∧ (∃ vs,
       Forall2 (fun r v => pickle_loads (embedding_vector r) = Some v) rows vs
       ∧ vectors_of st' sid = vectors_of st sid ++ vs)
  ∧ metadata_of st' sid = metadata_of st sid ++ (row_metadata <$> rows)
  ∧ texts_of (load_session_from_database sid rows st').2 sid
    = texts_of st sid ++ (chunk_text <$> rows) ++ (chunk_text <$> rows).
Proof.
  intros Hinv Hrows. cbv zeta.
  destruct (load_session_spec sid rows st Hinv Hrows) as (Hr & Ht & Hv & Hm).
  cbv zeta in Ht, Hv, Hm.
  destruct (load_session_inv sid rows st Hinv Hrows) as [_ Hinv'].
  destruct (load_session_spec sid rows _ Hinv' Hrows) as (_ & Ht' & _).
  cbv zeta in Ht'.
  split_and!; [done..|]. by rewrite Ht', Ht, <- (assoc_L (++)).
Qed.

(** X7. When the rows up to some row can be unpickled and that row
    cannot, [load_session_from_database] raises the error of
    [pickle.loads] and leaves the session with the texts of the rows up to
    and including the failing one, but with the vectors and the metadata
    of the rows before it only: one text more than vectors, on every
    store whose dictionaries agreed. The rows after it are not read. *)
Theorem load_session_failure sid good bad rest st :
  store_inv st → rows_loadable good →
  pickle_loads (embedding_vector bad) = None →
  let st' := (load_session_from_database sid (good ++ bad :: rest) st).2 in
  (load_session_from_database sid (good ++ bad :: rest) st).1
  = Raises UnpicklingError
  ∧ texts_of st' sid
    = texts_of st sid ++ (chunk_text <$> good) ++ [chunk_text bad]
  ∧ metadata_of st' sid = metadata_of st sid ++ (row_metadata <$> good)
  ∧ length (vectors_of st' sid) = length (metadata_of st' sid)
  ∧ length (texts_of st' sid) = S (length (vectors_of st' sid))
  ∧ ¬ store_inv st'.
Proof.
  intros Hinv Hrows Hbad. cbv zeta.
  destruct (rows_loadable_vectors good Hrows) as [vs Hvs].
  destruct (init_session_spec sid st Hinv) as (Hr & Hd & He & Hm & _).
  assert (length (texts_of st sid) = length (vectors_of st sid)
          ∧ length (texts_of st sid) = length (metadata_of st sid))
    as [Hlen1 Hlen2].
  { destruct (proj1 (store_inv_alt st) Hinv sid) as [H1 H2].
    unfold texts_of, vectors_of, metadata_of.
    destruct (session_documents st !! sid), (session_embeddings st !! sid),
      (session_metadata st !! sid); simpl in *; by simplify_eq. }
  unfold load_session_from_database, and_then.
  destruct (init_session sid st) as [r st1]. simpl in Hr, Hd, He, Hm.
  subst r.
  rewrite (load_rows_failure _ _ _ rest _ _ _ _ _ Hvs Hbad Hd He Hm).
  cbn [fst snd]. set (st' := {| session_documents := _ |}).
  assert (texts_of st' sid
          = texts_of st sid ++ (chunk_text <$> good) ++ [chunk_text bad])
    as Ht by (unfold texts_of at 1; simpl; by rewrite lookup_insert_eq).
  assert (vectors_of st' sid = vectors_of st sid ++ vs) as Hv
    by (unfold vectors_of at 1; simpl; by rewrite lookup_insert_eq).
  assert (metadata_of st' sid = metadata_of st sid ++ (row_metadata <$> good))
    as Hmeta by (unfold metadata_of at 1; simpl; by rewrite lookup_insert_eq).
  pose proof (Forall2_length _ _ _ Hvs) as Hlen.
  rewrite Ht, Hv, Hmeta, !length_app, !length_fmap. simpl.
  split_and!; [done..|lia|lia|].
  intros Hinv'. destruct (proj1 (store_inv_alt _) Hinv' sid) as [H1 _].
  subst st'. simpl in H1. rewrite !lookup_insert_eq in H1. simpl in H1.
  rewrite !length_app, !length_fmap in H1. simpl in H1.
  injection H1 as H1. lia.
Qed.

End Appends.

(** ** Sessions do not see each other *)

Section Isolation.
Context `{Externals}.

Lemma and_then_other {A B} (m : action A) (k : A → action B) s' :
  (∀ st, session_of (m st).2 s' = session_of st s') →
  (∀ a st, session_of (k a st).2 s' = session_of st s') →
  ∀ st, session_of (and_then m k st).2 s' = session_of st s'.
Proof.
  intros Hm Hk st. unfold and_then. specialize (Hm st).
  destruct (m st) as [[a|e|] st1]; simpl in *; [|done..].
  by rewrite Hk.
Qed.

Lemma append_document_other k x s' st :
  k ≠ s' → session_of (append_document k x st).2 s' = session_of st s'.
Proof.
  intros Hne. unfold append_document, dict_append, session_of.
  destruct (session_documents st !! k); simpl; [|done].
  by rewrite lookup_insert_ne.
Qed.

Lemma append_embedding_other k x s' st :
  k ≠ s' → session_of (append_embedding k x st).2 s' = session_of st s'.
Proof.
  intros Hne. unfold append_embedding, dict_append, session_of.
  destruct (session_embeddings st !! k); simpl; [|done].
  by rewrite lookup_insert_ne.
Qed.

Lemma append_metadata_other k x s' st :
  k ≠ s' → session_of (append_metadata k x st).2 s' = session_of st s'.
Proof.
  intros Hne. unfold append_metadata, dict_append, session_of.
  destruct (session_metadata st !! k); simpl; [|done].
  by rewrite lookup_insert_ne.
Qed.

Lemma init_session_other k s' st :
  k ≠ s' → session_of (init_session k st).2 s' = session_of st s'.
Proof.
  intros Hne. unfold init_session, session_of. case_decide; simpl; [done|].
  by rewrite !lookup_insert_ne.
Qed.

Lemma store_chunks_other doc_id k doc_name cs idx s' st :
  k ≠ s' →
  session_of (store_chunks doc_id k doc_name idx cs st).2 s'
  = session_of st s'.
Proof.
  intros Hne. revert idx st. induction cs as [|c cs IH]; intros idx st; [done|].
  cbn [store_chunks]. revert st.
  apply and_then_other; [intros; by apply append_document_other|intros _].
  apply and_then_other; [intros; by apply append_embedding_other|intros _].
  apply and_then_other; [intros; by apply append_metadata_other|intros _].
  apply IH.
Qed.

Lemma load_rows_other k rows s' st :
  k ≠ s' → session_of (load_rows k rows st).2 s' = session_of st s'.
Proof.
  intros Hne. revert st. induction rows as [|r rows IH]; intros st; [done|].
  cbn [load_rows]. revert st.
  apply and_then_other; [intros; by apply append_document_other|intros _].
  apply and_then_other; [done|intros v].
  apply and_then_other; [intros; by apply append_embedding_other|intros _].
  apply and_then_other; [intros; by apply append_metadata_other|intros _].
  apply IH.
Qed.

Lemma run_op_other op s s' st :
  op_session op = Some s → s ≠ s' →
  session_of (run_op op st).2 s' = session_of st s'.
Proof.
  intros Hop Hne. destruct op; simpl in Hop; simplify_eq; simpl.
  - revert st. apply and_then_other; [intros; by apply init_session_other|].
    intros _ st. by apply store_chunks_other.
  - revert st. apply and_then_other; [intros; by apply init_session_other|].
    intros _ st. by apply load_rows_other.
  - unfold session_of. simpl. rewrite !dict_discard_lookup.
    by rewrite !decide_False.
Qed.

(** The statistics of a session depend on the store through that session
    only. *)
Lemma get_session_stats_local s st st' :
  s ≠ EmptyString → session_of st s = session_of st' s →
  get_session_stats (Some s) st = get_session_stats (Some s) st'.
Proof.
  intros Hs Heq. unfold session_of in Heq. simplify_eq.
  unfold get_session_stats, id_truthy, dict_get.
  rewrite decide_False by done.
  assert (s ∈ dom (session_documents st) ↔ s ∈ dom (session_documents st'))
    as Hdom by (rewrite !elem_of_dom; by rewrite H0).
  rewrite <- H0, <- H1.
  destruct (decide (s ∈ dom (session_documents st))) as [Hin|Hin],
    (decide (s ∈ dom (session_documents st'))) as [Hin'|Hin'];
    tauto || done.
Qed.

(** X8. An ingestion, a load or a clear of session [s] leaves what the
    store holds for every other session as it was, also when it raises;
    so a retrieval on another session returns what it returned before
    and, for a session id other than the empty string, so do the
    statistics of that session. *)
Theorem other_sessions_untouched op s s' st :
  op_session op = Some s → s ≠ s' →
  let st' := (run_op op st).2 in
  session_of st' s' = session_of st s'
  ∧ (∀ query top_k,
       retrieve_chunks query (Some s') top_k st'
       = retrieve_chunks query (Some s') top_k st)
  ∧ (s' ≠ EmptyString →
     get_session_stats (Some s') st' = get_session_stats (Some s') st).
Proof.
  intros Hop Hne. cbv zeta.
  pose proof (run_op_other op s s' st Hop Hne) as Heq.
  split_and!; [done| |].
  - intros query top_k. unfold session_of in Heq. simplify_eq.
    by apply retrieve_chunks_local.
  - intros Hs'. by apply get_session_stats_local.
Qed.

End Isolation.

(** ** Statistics *)

Lemma size_list_to_set_le (l : list string) :
  (size (list_to_set l : gset string) <= length l)%nat.
Proof.
  induction l as [|x l IH]; cbn [list_to_set length].
  - by rewrite size_empty.
  - rewrite size_union_alt, size_singleton.
    assert (list_to_set l ∖ {[x]} ⊆ (list_to_set l : gset string)) as Hsub
      by (intros y [Hy _]%elem_of_difference; exact Hy).
    apply subseteq_size in Hsub. lia.
Qed.

Lemma size_list_to_set_pos (l : list string) :
  l ≠ [] → (1 <= size (list_to_set l : gset string))%nat.
Proof.
  destruct l as [|x l]; [done|]. intros _. cbn [list_to_set].
  rewrite size_union_alt, size_singleton. lia.
Qed.


Section Statistics.
Context `{Externals}.



(** The lengths of the three lists of a session agree. *)
Lemma store_inv_lengths st sid :
  store_inv st →
  length (texts_of st sid) = length (vectors_of st sid)
  ∧ length (texts_of st sid) = length (metadata_of st sid).
Proof.
  intros Hinv. destruct (proj1 (store_inv_alt st) Hinv sid) as [H1 H2].
  unfold texts_of, vectors_of, metadata_of.
  destruct (session_documents st !! sid), (session_embeddings st !! sid),
    (session_metadata st !! sid); simpl in *; by simplify_eq.
Qed.

Lemma get_session_stats_value sid st :
  store_inv st → sid ≠ EmptyString →
  get_session_stats (Some sid) st
  = Returns (SessionStats sid (len (texts_of st sid))
               (Z.of_nat (size (list_to_set (doc_id <$> metadata_of st sid)
                                : gset string)))).
Proof.
  intros Hinv Hsid. pose proof Hinv as (Hde & Hdm & _).
  unfold get_session_stats, id_truthy, dict_get, texts_of, metadata_of.
  rewrite decide_False by done. case_decide as Hin.
  - pose proof Hin as Hin'. rewrite Hdm in Hin'.
    apply elem_of_dom in Hin as [d ->], Hin' as [m ->]. done.
  - pose proof Hin as Hin'. rewrite Hdm in Hin'.
    apply not_elem_of_dom in Hin as ->, Hin' as ->. done.
Qed.

(** X9. On a store whose three dictionaries agree, and for a session id
    other than the empty string, [get_session_stats] raises nothing:
    [total_chunks] is the number of chunk texts of the session (0 for an
    absent one) and [unique_documents], the number of distinct document
    ids in its metadata, is at most [total_chunks] and at least 1 as soon
    as the session has a chunk. *)
Theorem get_session_stats_counts sid st :
  store_inv st → sid ≠ EmptyString →
  ∃ unique,
    get_session_stats (Some sid) st
    = Returns (SessionStats sid (len (texts_of st sid)) unique)
    ∧ 0 <= unique <= len (texts_of st sid)
    ∧ (1 <= len (texts_of st sid) → 1 <= unique)
    ∧ unique
      = Z.of_nat (size (list_to_set (doc_id <$> metadata_of st sid)
                        : gset string)).
Proof.
  intros Hinv Hsid. eexists. split; [by apply get_session_stats_value|].
  destruct (store_inv_lengths st sid Hinv) as [_ Hlen].
  pose proof (size_list_to_set_le (doc_id <$> metadata_of st sid)) as Hle.
  rewrite length_fmap in Hle. unfold len. rewrite Hlen.
  split_and!; [lia|lia| |done].
  intros Hpos.
  pose proof (size_list_to_set_pos (doc_id <$> metadata_of st sid)) as Hge.
  destruct (metadata_of st sid); simpl in *; [lia|].
  specialize (Hge ltac:(done)). lia.
Qed.


Lemma total_insert (D : gmap string (list text)) sid l :
  map_fold (fun _ cs n => len cs + n) 0 (<[sid := l]> D)
  = map_fold (fun _ cs n => len cs + n) 0 D
    - len (default [] (D !! sid)) + len l.
Proof.
  assert (∀ (m : gmap string (list text)) (j1 j2 : string) z1 z2 (y : Z),
            j1 ≠ j2 → m !! j1 = Some z1 → m !! j2 = Some z2 →
            len z1 + (len z2 + y) = len z2 + (len z1 + y)) as Hcomm
    by (intros; lia).
  destruct (D !! sid) as [l0|] eqn:Hl; simpl.
  - rewrite <- (insert_delete_eq D).
    rewrite (map_fold_delete_L _ 0 sid l0 D (Hcomm D) Hl).
    rewrite map_fold_insert_L; [lia|apply Hcomm|apply lookup_delete_eq].
  - rewrite map_fold_insert_L; [unfold len; simpl; lia|apply Hcomm|done].
Qed.

Lemma process_document_documents t d sid name st :
  store_inv st →
  session_documents (process_document_text_with_storage t d sid name st).2
  = <[sid := texts_of st sid
             ++ split_text_intelligent (clean_text t) default_chunk_size
                  default_overlap]> (session_documents st).
Proof.
  intros Hinv.
  destruct (init_session_spec sid st Hinv) as (Hr & Hd & He & Hm & _).
  unfold process_document_text_with_storage, and_then.
  assert (session_documents (init_session sid st).2
          = <[sid := texts_of st sid]> (session_documents st)) as Hdocs.
  { unfold init_session, texts_of. case_decide as Hin; simpl.
    - apply elem_of_dom in Hin as [l Hl]. rewrite Hl. simpl.
      by rewrite insert_id.
    - apply not_elem_of_dom in Hin. by rewrite Hin. }
  destruct (init_session sid st) as [r st1]. simpl in Hr, Hd, He, Hm, Hdocs.
  subst r. rewrite (store_chunks_spec _ _ _ _ _ _ _ _ _ Hd He Hm).
  simpl. by rewrite Hdocs, insert_insert_eq.
Qed.

(** X11. The statistics of all sessions after an ingestion: the number
    of sessions grows by one when the session is new, the total number
    of chunks grows by the number of chunks of the document, and the
    session is among the sessions listed. *)
Theorem get_stats_after_ingest t d sid name st sessions total ids :
  store_inv st →
  get_stats st = Returns (AllStats sessions total ids) →
  let cs :=
    split_text_intelligent (clean_text t) default_chunk_size default_overlap in
  get_stats (process_document_text_with_storage t d sid name st).2
  = Returns (AllStats (if decide (sid ∈ ids) then sessions else sessions + 1)
               (total + len cs) (ids ∪ {[ sid ]})).
Proof.
  intros Hinv Hstats. cbv zeta.
  unfold get_stats, get_session_stats in *. simpl in *.
  injection Hstats as <- <- <-.
  rewrite (process_document_documents t d sid name st Hinv).
  rewrite total_insert, dom_insert_L, map_size_insert.
  unfold texts_of. f_equal. f_equal.
  - case_decide as Hin.
    + apply elem_of_dom in Hin as [l ->]. done.
    + apply not_elem_of_dom in Hin as ->. lia.
  - unfold len. rewrite length_app. lia.
  - apply (comm_L (∪)).
Qed.

End Statistics.

(** ** The chunker: the shape of the chunks and their size *)

Lemma slice_from_Forall {A} (P : A → Prop) (start : Z) (l : list A) :
  Forall P l → Forall P (slice_from start l).
Proof. intros Hl. unfold slice_from. by apply Forall_drop. Qed.

Lemma chunk_step_words chunk_size overlap st sentence :
  Forall is_word (current_chunk st) →
  Forall is_word (current_chunk (chunk_step chunk_size overlap st sentence)).
Proof.
  intros Hcur. unfold chunk_step.
  destruct (_ && _); simpl; apply Forall_app; split;
    try apply split_words; [|done].
  destruct (_ >? _); [by apply slice_from_Forall|done].
Qed.

Lemma chunk_step_chunks (P : text → Prop) chunk_size overlap st sentence :
  (current_chunk st ≠ [] → P (join (current_chunk st))) →
  Forall P (chunks st) →
  Forall P (chunks (chunk_step chunk_size overlap st sentence)).
Proof.
  intros Hcur Hchunks. unfold chunk_step.
  destruct (_ && _) eqn:Hcond; simpl; [|done].
  apply andb_true_iff in Hcond as [_ Hne%truthy_true].
  apply Forall_app. split; [done|]. constructor; [by apply Hcur|constructor].
Qed.

(** A property of the joined words that holds for every non-empty list of
    words holds for every chunk. *)
Lemma split_text_intelligent_Forall (P : text → Prop) t chunk_size overlap :
  (∀ ws, ws ≠ [] → Forall is_word ws → P (join ws)) →
  Forall P (split_text_intelligent t chunk_size overlap).
Proof.
  intros HP. unfold split_text_intelligent.
  assert (∀ sentences st,
            Forall is_word (current_chunk st) → Forall P (chunks st) →
            let st' := fold_left (chunk_step chunk_size overlap) sentences st in
            Forall is_word (current_chunk st') ∧ Forall P (chunks st'))
    as Hfold.
  { induction sentences as [|s sentences IH]; intros st Hcur Hchunks; [done|].
    simpl. apply IH; [by apply chunk_step_words|].
    apply chunk_step_chunks; [|done]. intros Hne. by apply HP. }
  destruct (Hfold (re_split_sentences t) chunker_init) as [Hcur Hchunks];
    [constructor..|].
  destruct (truthy _) eqn:Hne; [|done].
  apply truthy_true in Hne. apply Forall_app. split; [done|].
  constructor; [by apply HP|constructor].
Qed.

(** X12. For every text, chunk size and overlap, every chunk the chunker
    returns has at least one word and is its words joined by single
    spaces: no chunk is empty, and none begins or ends with whitespace or
    has two whitespace characters in a row. *)
Theorem split_text_intelligent_chunks_are_words t chunk_size overlap :
  Forall (fun c => split c ≠ [] ∧ join (split c) = c)
    (split_text_intelligent t chunk_size overlap).
Proof.
  apply split_text_intelligent_Forall. intros ws Hne Hws.
  by rewrite split_join.
Qed.

Lemma chunk_fold_fits chunk_size overlap sentences st :
  chunks st = [] → current_size st = len (current_chunk st) →
  len (current_chunk st) + len (concat (split <$> sentences)) <= chunk_size
  ∨ (current_chunk st = [] ∧ concat (split <$> sentences) = []) →
  fold_left (chunk_step chunk_size overlap) sentences st
  = {| chunks := [];
       current_chunk := current_chunk st ++ concat (split <$> sentences);
       current_size :=
         len (current_chunk st ++ concat (split <$> sentences)) |}.
Proof.
  revert st. induction sentences as [|s sentences IH];
    intros st Hchunks Hsize Hfits.
  - simpl. rewrite app_nil_r, <- Hsize, <- Hchunks. by destruct st.
  - change (concat (split <$> s :: sentences))
      with (split s ++ concat (split <$> sentences)) in *.
    assert (chunk_step chunk_size overlap st s
            = {| chunks := [];
                 current_chunk := current_chunk st ++ split s;
                 current_size := len (current_chunk st ++ split s) |}) as E.
    { unfold chunk_step.
      replace ((current_size st + len (split s) >? chunk_size)
               && truthy (current_chunk st)) with false.
      - rewrite Hchunks, Hsize. f_equal. unfold len. rewrite length_app. lia.
      - symmetry. apply andb_false_iff.
        destruct Hfits as [Hle|[-> _]]; [left|by right].
        unfold len in *. rewrite length_app in Hle. lia. }
    simpl. rewrite E, IH; simpl.
    + by rewrite <- !(assoc_L (++)).
    + done.
    + done.
    + destruct Hfits as [Hle|[-> Hnil]].
      * left. unfold len in *. rewrite !length_app in *. lia.
      * right. apply app_eq_nil in Hnil as [-> ->]. done.
Qed.

Lemma split_text_intelligent_fits t chunk_size overlap :
  len (split t) <= chunk_size ∨ split t = [] →
  split_text_intelligent t chunk_size overlap
  = if decide (split t = []) then [] else [join (split t)].
Proof.
  intros Hshort. unfold split_text_intelligent.
  rewrite chunk_fold_fits; simpl; rewrite ?re_split_sentences_words.
  - case_decide as Hnil; [by rewrite Hnil|].
    by apply truthy_true in Hnil as ->.
  - done.
  - done.
  - destruct Hshort as [Hle|Hnil]; [left; unfold len in *; simpl; lia|by right].
Qed.

(** X13. A text with no more than [chunk_size] words, or with no word at
    all, is not cut: the chunker returns one chunk, the words of the text
    joined by single spaces, or no chunk when the text has no word. The
    overlap plays no part. *)
Theorem split_text_intelligent_short t chunk_size overlap :
  len (split t) <= chunk_size ∨ split t = [] →
  split_text_intelligent t chunk_size overlap
  = if decide (split t = []) then [] else [join (split t)].
Proof. apply split_text_intelligent_fits. Qed.

Lemma chunk_step_bounded chunk_size overlap st sentence :
  1 <= overlap →
  len (split sentence) <= chunk_size - overlap →
  Forall is_word (current_chunk st) →
  current_size st = len (current_chunk st) →
  len (current_chunk st) <= chunk_size →
  let st' := chunk_step chunk_size overlap st sentence in
  current_size st' = len (current_chunk st')
  ∧ len (current_chunk st') <= chunk_size.
Proof.
  intros Hov Hs Hwords Hsize Hle. unfold chunk_step.
  destruct (_ && _) eqn:Hcond; simpl.
  - split; [done|]. unfold len in *. rewrite length_app.
    destruct (Z.gtb_spec (Z.of_nat (length (current_chunk st))) overlap).
    + rewrite slice_from_last_n, last_n_length by done. lia.
    + lia.
  - unfold len in *. rewrite length_app. split; [lia|].
    apply andb_false_iff in Hcond as [Hgt|Hnil].
    + lia.
    + apply truthy_false in Hnil. rewrite Hnil. simpl. lia.
Qed.

Lemma re_split_from_nonempty piece after_end in_match s :
  re_split_from piece after_end in_match s ≠ [].
Proof.
  revert piece after_end in_match.
  induction s as [|c s IH]; intros piece after_end in_match; simpl; [done|].
  destruct (isspace c), in_match, after_end; done || apply IH.
Qed.

(** X14. With an overlap of at least one word, when every sentence of
    the text, as the sentence pattern cuts it, has at most
    [chunk_size - overlap] words, no chunk has more than [chunk_size]
    words. *)
Theorem split_text_intelligent_chunk_size t chunk_size overlap :
  1 <= overlap →
  Forall (fun s => len (split s) <= chunk_size - overlap)
    (re_split_sentences t) →
  Forall (fun c => len (split c) <= chunk_size)
    (split_text_intelligent t chunk_size overlap).
Proof.
  intros Hov Hsentences. unfold split_text_intelligent.
  assert (0 <= chunk_size) as Hcs.
  { destruct (re_split_sentences t) as [|s l] eqn:E.
    - by apply re_split_from_nonempty in E.
    - inversion_clear Hsentences. unfold len in *. lia. }
  assert (∀ sentences st,
            Forall (fun s => len (split s) <= chunk_size - overlap) sentences →
            Forall is_word (current_chunk st) →
            current_size st = len (current_chunk st) →
            len (current_chunk st) <= chunk_size →
            Forall (fun c => len (split c) <= chunk_size) (chunks st) →
            let st' := fold_left (chunk_step chunk_size overlap) sentences st in
            Forall is_word (current_chunk st')
            ∧ len (current_chunk st') <= chunk_size
            ∧ Forall (fun c => len (split c) <= chunk_size) (chunks st'))
    as Hfold.
  { intros sentences st Hsent. revert st.
    induction Hsent as [|s sentences Hs _ IH];
      intros st Hwords Hsize Hle Hchunks; [done|].
    simpl.
    destruct (chunk_step_bounded chunk_size overlap st s Hov Hs Hwords Hsize
                Hle) as [Hsize' Hle'].
    apply IH; [by apply chunk_step_words|done|done|].
    apply chunk_step_chunks; [|done]. intros _. by rewrite split_join. }
  destruct (Hfold (re_split_sentences t) chunker_init Hsentences)
    as (Hwords & Hle & Hchunks);
    [apply Forall_nil_2|done|by unfold len|apply Forall_nil_2|].
  destruct (truthy _); [|done].
  apply Forall_app. split; [done|].
  constructor; [by rewrite split_join|constructor].
Qed.

Lemma split_text_intelligent_nonempty t chunk_size overlap :
  split t ≠ [] → split_text_intelligent t chunk_size overlap ≠ [].
Proof.
  intros Hwords. unfold split_text_intelligent.
  destruct (chunk_fold_nonempty chunk_size overlap (re_split_sentences t)
              chunker_init) as [Hch|Hcur].
  - right. by rewrite re_split_sentences_words.
  - destruct (truthy _); [|done]. by destruct (chunks _).
  - apply truthy_true in Hcur as ->. by destruct (chunks _).
Qed.

(** ** Ingestion: which texts leave chunks *)

Lemma lstrip_spaces s : Forall (fun c => isspace c = true) s → lstrip s = [].
Proof. induction 1 as [|c s Hc _ IH]; simpl; [done|]. by rewrite Hc. Qed.

Lemma clean_text_invisible t :
  Forall (fun c => is_visible c = false) t → clean_text t = [].
Proof.
  intros Ht. unfold clean_text.
  assert (Forall (fun c => c = space ∨ is_control c = true)
            (collapse_spaces false t)) as Hu.
  { apply collapse_spaces_Forall; [by left|].
    eapply Forall_impl; [exact Ht|]. intros c Hc Hsp. right.
    unfold is_visible in Hc. rewrite Hsp in Hc. simpl in Hc.
    by destruct (is_control c). }
  assert (Forall (fun c => c = space)
            (filter (fun c => is_control c = false) (collapse_spaces false t)))
    as Hf.
  { apply Forall_forall. intros c [Hc Hin]%list_elem_of_filter.
    rewrite Forall_forall in Hu. destruct (Hu c Hin) as [->|Hctl]; [done|].
    congruence. }
  rewrite (replace_char_id 64257%N)
    by (eapply Forall_impl; [exact Hf|]; by intros c ->).
  rewrite (replace_char_id 64258%N)
    by (eapply Forall_impl; [exact Hf|]; by intros c ->).
  unfold strip. rewrite (lstrip_spaces (filter _ _)); [done|].
  eapply Forall_impl; [exact Hf|]. by intros c ->.
Qed.

Lemma collapse_spaces_keeps c in_run t :
  c ∈ t → isspace c = false → c ∈ collapse_spaces in_run t.
Proof.
  intros Hin Hc. revert in_run.
  induction Hin as [c t|c d t _ IH]; intros in_run; simpl.
  - rewrite Hc. left.
  - destruct (isspace d); [destruct in_run|].
    + by apply IH.
    + right. by apply IH.
    + right. by apply IH.
Qed.

Lemma replace_char_Exists k r s :
  r ≠ [] → Forall (fun c => isspace c = false) r →
  Exists (fun c => isspace c = false) s →
  Exists (fun c => isspace c = false) (replace_char k r s).
Proof.
  intros Hne Hr. unfold replace_char.
  induction 1 as [c s Hc|c s _ IH]; simpl; apply Exists_app.
  - left. destruct (c =? k)%N.
    + destruct r as [|x r]; [done|]. inversion_clear Hr. by left.
    + by left.
  - by right.
Qed.

Lemma lstrip_Exists s :
  Exists (fun c => isspace c = false) s →
  Exists (fun c => isspace c = false) (lstrip s).
Proof.
  induction 1 as [c s Hc|c s _ IH]; simpl.
  - rewrite Hc. by left.
  - destruct (isspace c) eqn:Hc; [done|]. by left.
Qed.

Lemma reverse_Exists {A} (P : A → Prop) (l : list A) :
  Exists P l → Exists P (reverse l).
Proof.
  rewrite !Exists_exists. intros (x & Hin & Hx). exists x.
  by rewrite elem_of_reverse.
Qed.

Lemma split_from_Exists w s :
  Exists (fun c => isspace c = false) s → split_from w s ≠ [].
Proof.
  intros Hs. revert w. induction Hs as [c s Hc|c s _ IH]; intros w; simpl.
  - rewrite Hc. apply split_from_nonempty. by destruct w.
  - destruct (isspace c); [|apply IH].
    destruct (truthy w); [done|apply IH].
Qed.

Lemma clean_text_visible t :
  Exists (fun c => is_visible c = true) t → split (clean_text t) ≠ [].
Proof.
  intros (c & Hin & Hc)%Exists_exists.
  unfold is_visible in Hc. apply andb_true_iff in Hc as [Hsp Hctl].
  apply negb_true_iff in Hsp, Hctl.
  apply split_from_Exists. unfold clean_text, strip.
  apply reverse_Exists, lstrip_Exists, reverse_Exists, lstrip_Exists.
  apply replace_char_Exists; [done|repeat constructor|].
  apply replace_char_Exists; [done|repeat constructor|].
  apply Exists_exists. exists c. split; [|done].
  apply list_elem_of_filter. split; [done|].
  by apply collapse_spaces_keeps.
Qed.

Lemma visible_dec t :
  Forall (fun c => is_visible c = false) t
  ∨ Exists (fun c => is_visible c = true) t.
Proof.
  induction t as [|c t [IH|IH]].
  - left. constructor.
  - destruct (is_visible c) eqn:Hc; [right; by left|left; by constructor].
  - right. by right.
Qed.

Section Visible.
Context `{Externals}.

(** X15. Ingestion adds chunks to the session exactly when the text has
    a visible character, one that is neither whitespace nor of the control
    class that cleaning removes. A text without one adds nothing, yet the
    session is created: when it held no chunk before, every retrieval on
    it still returns the sentinel. *)
Theorem ingest_adds_chunks_iff_visible t d sid name st :
  store_inv st →
  let st' := (process_document_text_with_storage t d sid name st).2 in
  (texts_of st' sid = texts_of st sid
   ↔ Forall (fun c => is_visible c = false) t)
  ∧ (Forall (fun c => is_visible c = false) t → texts_of st sid = [] →
     session_documents st' !! sid = Some []
     ∧ ∀ query top_k,
         retrieve_chunks query (Some sid) top_k st' = Returns [sentinel]).
Proof.
  intros Hinv. cbv zeta.
  destruct (process_document_spec t d sid name st Hinv) as (_ & Hd & He & _).
  cbv zeta in Hd, He.
  set (st' := (process_document_text_with_storage t d sid name st).2) in *.
  split.
  - unfold texts_of at 1. rewrite Hd. simpl. split.
    + intros Heq. destruct (visible_dec t) as [Hno|Hvis]; [done|].
      apply clean_text_visible in Hvis.
      apply (split_text_intelligent_nonempty _ default_chunk_size
               default_overlap) in Hvis.
      apply (f_equal length) in Heq. rewrite length_app in Heq.
      destruct (split_text_intelligent _ _ _); [done|]. simpl in Heq. lia.
    + intros Hno. rewrite (clean_text_invisible t Hno).
      by rewrite split_text_intelligent_empty, app_nil_r.
  - intros Hno Hnil.
    rewrite (clean_text_invisible t Hno), split_text_intelligent_empty in Hd, He.
    destruct (store_inv_lengths st sid Hinv) as [Hlen _].
    rewrite Hnil in Hd, Hlen. simpl in Hlen.
    destruct (vectors_of st sid); [|done]. simpl in Hd, He.
    split; [done|]. intros query top_k.
    apply retrieve_chunks_no_chunks. by right.
Qed.

(** X16. A document of at most 500 words, with at least one, whose
    characters outside whitespace are neither of the control class nor
    ligatures, is stored as one chunk: its words joined by single
    spaces, with its embedding, and with the metadata of chunk 0. *)
Theorem ingest_short_document t d sid name st :
  store_inv st →
  Forall (fun c => isspace c = false →
                   is_control c = false ∧ is_ligature c = false) t →
  1 <= len (split t) <= default_chunk_size →
  let st' := (process_document_text_with_storage t d sid name st).2 in
  let chunk := join (split t) in
  texts_of st' sid = texts_of st sid ++ [chunk]
  ∧ vectors_of st' sid = vectors_of st sid ++ [encode chunk]
  ∧ metadata_of st' sid
    = metadata_of st sid
      ++ [{| doc_id := d; doc_name := name; chunk_id := 0;
             char_count := len chunk |}].
Proof.
  intros Hinv Ht Hwords. cbv zeta.
  destruct (process_document_spec t d sid name st Hinv) as (_ & Hd & He & Hm).
  cbv zeta in Hd, He, Hm.
  assert (split_text_intelligent (clean_text t) default_chunk_size
            default_overlap = [join (split t)]) as Hcs.
  { rewrite split_text_intelligent_fits; rewrite (clean_text_plain t Ht),
      split_join by apply split_words.
    - rewrite decide_False; [done|]. intros Hnil. rewrite Hnil in Hwords.
      unfold len in Hwords. simpl in Hwords. lia.
    - left. lia. }
  rewrite Hcs in Hd, He, Hm.
  unfold texts_of at 1, vectors_of at 1, metadata_of at 1.
  by rewrite Hd, He, Hm.
Qed.

End Visible.

(** ** Retrieval: the best chunk, every chunk, and [top_k] below one *)

Section RetrieveMore.
Context `{Externals} `{!ExternalsLaws}.

Lemma np_argsort_len (sims : list scalar) :
  length (np_argsort sims) = length sims.
Proof. by rewrite np_argsort_perm, length_seq. Qed.

(** The candidates are the sort from some position on, reversed: from
    position [N - min(2 * top_k, N)] for [top_k >= 1], and from position
    [min(-2 * top_k, N)] for [top_k <= 0], where the negated count is not a
    negative index any more. *)
Lemma top_indices_drop (sims : list scalar) top_k :
  sims ≠ [] →
  top_indices sims top_k
  = reverse
      (drop (Z.to_nat (if 1 <=? top_k
                       then len sims - Z.min (2 * top_k) (len sims)
                       else Z.min (- 2 * top_k) (len sims)))
         (np_argsort sims)).
Proof.
  intros Hne. unfold top_indices, slice_from, len.
  rewrite np_argsort_len.
  assert (1 <= length sims)%nat by (destruct sims; [done|simpl; lia]).
  do 3 f_equal.
  destruct (Z.leb_spec 1 top_k);
    match goal with |- context [?a <? 0] => destruct (Z.ltb_spec a 0) end;
    lia.
Qed.

(** The last index of the sort is an index of the highest similarity,
    and it is the first candidate whenever there is one. *)
Lemma first_candidate_best (sims : list scalar) p :
  (p < length sims)%nat →
  ∃ b, head (reverse (drop p (np_argsort sims))) = Some b
       ∧ is_most_similar sims b.
Proof.
  intros Hp. pose proof (np_argsort_len sims) as Hlen.
  destruct (lookup_lt_is_Some_2 (np_argsort sims) (length sims - 1))
    as [b Hb]; [lia|].
  exists b. split.
  - rewrite head_reverse, last_lookup, lookup_drop, length_drop, Hlen, <- Hb.
    f_equal. lia.
  - assert (b ∈ seq 0 (length sims)) as Hin.
    { rewrite <- np_argsort_perm. by eapply list_elem_of_lookup_2. }
    apply elem_of_seq in Hin.
    destruct (lookup_lt_is_Some_2 sims b) as [x Hx]; [lia|].
    exists x. split; [done|]. intros j y Hy.
    assert (j ∈ np_argsort sims) as Hj.
    { rewrite np_argsort_perm. apply elem_of_seq.
      apply lookup_lt_Some in Hy. lia. }
    apply list_elem_of_lookup_1 in Hj as [i Hi].
    apply (np_argsort_ascending sims i (length sims - 1) j b y x);
      [|done..].
    apply lookup_lt_Some in Hi. lia.
Qed.

Lemma holds_chunks_nonempty st sid docs (embs : list vector) :
  holds_chunks st sid docs embs → (1 <= length docs)%nat →
  embs ≠ [] ∧ length (np_dot (encode (str "")) <$> embs) = length docs.
Proof.
  intros (_ & _ & _ & Hlen) Hdocs. rewrite length_fmap.
  split; [|done]. destruct embs; [simpl in *; lia|done].
Qed.

Lemma retrieve_chunks_head query sid top_k st docs embs :
  holds_chunks st sid docs embs → (1 <= length docs)%nat → 1 <= top_k →
  ∃ i t rest,
    retrieve_chunks query (Some sid) top_k st = Returns (t :: rest)
    ∧ docs !! i = Some t
    ∧ is_most_similar (np_dot (encode query) <$> embs) i.
Proof.
  intros Hholds Hdocs Htop.
  destruct (holds_chunks_nonempty st sid docs embs Hholds Hdocs)
    as [Hne _].
  pose proof Hholds as (_ & _ & _ & Hlen).
  set (sims := np_dot (encode query) <$> embs).
  assert (sims ≠ []) as Hsims by (subst sims; by destruct embs).
  assert (length sims = length docs) as Hsl
    by (subst sims; by rewrite length_fmap).
  destruct (selected_indices_run query embs top_k Htop Hne)
    as (selected & Hsel & Hshort & Hlong & Hrange).
  cbv zeta in Hshort, Hlong. fold sims in Hshort, Hlong.
  destruct (first_candidate_best sims
              (Z.to_nat (len sims - Z.min (2 * top_k) (len sims))))
    as (b & Hhead & Hbest); [unfold len; lia|].
  assert (head (top_indices sims top_k) = Some b) as Hhead'.
  { rewrite top_indices_drop by done.
    by destruct (Z.leb_spec 1 top_k); [|lia]. }
  assert (∃ sel', selected = b :: sel') as [sel' ->].
  { destruct (Z.le_gt_cases (len (top_indices sims top_k)) top_k) as [Hle|Hgt].
    - rewrite (Hshort Hle).
      destruct (top_indices sims top_k); simplify_eq/=. by eexists.
    - destruct (Hlong ltac:(lia)) as (first & rest & Heq & Hrun).
      rewrite Heq in Hhead'. simplify_eq/=.
      apply loop_run_moves in Hrun as (picked & _ & -> & _). by eexists. }
  rewrite (retrieve_chunks_selected _ _ _ _ _ _ _ Hholds Hne Hsel).
  destruct (texts_of_indices docs (b :: sel')) as (result & Hres & Hf2).
  { eapply Forall_impl; [exact Hrange|]. intros i Hi. simpl in Hi. lia. }
  apply Forall2_cons_inv_l in Hf2 as (t & rest & Hb & _ & ->).
  exists b, t, rest. by split_and!.
Qed.


(** X18. With [top_k <= 0] on a session that holds [N >= 1] chunks:
    [retrieve_chunks] raises [IndexError] when [N <= -2 * top_k], and
    otherwise returns exactly one text, a chunk of the highest similarity
    to the query; so with [top_k = 0] it returns one chunk, not none. *)
Theorem retrieve_chunks_top_k_below_one query sid top_k st docs embs :
  holds_chunks st sid docs embs → (1 <= length docs)%nat → top_k <= 0 →
  (len docs <= - 2 * top_k →
   retrieve_chunks query (Some sid) top_k st = Raises IndexError)
  ∧ (- 2 * top_k < len docs →
     ∃ i t,
       retrieve_chunks query (Some sid) top_k st = Returns [t]
       ∧ docs !! i = Some t
       ∧ is_most_similar (np_dot (encode query) <$> embs) i).
Proof.
  intros Hholds Hdocs Htop.
  destruct (holds_chunks_nonempty st sid docs embs Hholds Hdocs)
    as [Hne _].
  pose proof Hholds as (Hd & He & _ & Hlen).
  set (sims := np_dot (encode query) <$> embs).
  assert (sims ≠ []) as Hsims by (subst sims; by destruct embs).
  assert (length sims = length docs) as Hsl
    by (subst sims; by rewrite length_fmap).
  assert (top_indices sims top_k
          = reverse (drop (Z.to_nat (Z.min (- 2 * top_k) (len sims)))
                       (np_argsort sims))) as Htops.
  { rewrite top_indices_drop by done.
    by destruct (Z.leb_spec 1 top_k); [lia|]. }
  split.
  - intros Hfew. unfold retrieve_chunks. simpl. rewrite He.
    destruct embs as [|e embs']; [done|].
    unfold selected_indices. fold sims. rewrite Htops.
    rewrite drop_ge by (rewrite np_argsort_len; unfold len in *; lia).
    unfold rerank_with_diversity.
    replace (len (reverse []) <=? top_k) with false; [done|].
    symmetry. apply Z.leb_gt. unfold len in *. simpl. lia.
  - intros Hmany.
    destruct (first_candidate_best sims
                (Z.to_nat (Z.min (- 2 * top_k) (len sims))))
      as (b & Hhead & Hbest); [unfold len in *; lia|].
    rewrite <- Htops in Hhead.
    destruct (top_indices sims top_k) as [|b' rest] eqn:Hcands;
      simplify_eq/=.
    assert (selected_indices query embs top_k = Returns [b]) as Hsel.
    { unfold selected_indices. fold sims. rewrite Hcands.
      unfold rerank_with_diversity.
      replace (len (b :: rest) <=? top_k) with false
        by (symmetry; apply Z.leb_gt; unfold len; simpl; lia).
      replace (rerank_loop (length rest) sims embs top_k
                 default_diversity_weight [b] rest)
        with (Returns [b] : outcome (list nat)); [done|].
      assert ((len [b] <? top_k) && truthy rest = false) as Hcond
        by (apply andb_false_iff; left; apply Z.ltb_ge; unfold len; simpl; lia).
      destruct (length rest); simpl; by rewrite Hcond. }
    rewrite (retrieve_chunks_selected _ _ _ _ _ _ _ Hholds Hne Hsel).
    destruct Hbest as (x & Hx & Hmax).
    destruct (lookup_lt_is_Some_2 docs b) as [t Ht].
    { apply lookup_lt_Some in Hx. lia. }
    exists b, t. split_and!; [|done|by exists x].
    simpl. unfold index. by rewrite Ht.
Qed.

Lemma texts_of_permutation (docs result : list text) (indices : list nat) :
  indices ≡ₚ seq 0 (length docs) →
  Forall2 (fun i t => docs !! i = Some t) indices result →
  result ≡ₚ docs.
Proof.
  intros Hperm Hf2. destruct docs as [|t0 docs'].
  { apply Permutation_length in Hperm. destruct indices; [|done].
    by inversion Hf2. }
  set (docs := t0 :: docs') in *.
  assert (result = (fun i => default t0 (docs !! i)) <$> indices) as ->.
  { clear Hperm. induction Hf2 as [|i t indices result Hi _ IH]; [done|].
    rewrite fmap_cons, Hi, IH. done. }
  rewrite Hperm.
  enough ((fun i => default t0 (docs !! i)) <$> seq 0 (length docs) = docs)
    as -> by done.
  apply list_eq. intros i. rewrite list_lookup_fmap.
  destruct (decide (i < length docs)%nat) as [Hlt|Hge].
  - rewrite lookup_seq_lt by done. simpl.
    destruct (lookup_lt_is_Some_2 docs i Hlt) as [t ->]. done.
  - rewrite lookup_seq_ge, lookup_ge_None_2 by lia. done.
Qed.

(** X19. With [top_k] at least the number of chunks of the session,
    [retrieve_chunks] returns every chunk of the session once, in the
    order of the similarity to the query, highest first: nothing is
    re-ranked for diversity and nothing is left out. *)
Theorem retrieve_chunks_all query sid top_k st docs embs :
  holds_chunks st sid docs embs → (1 <= length docs)%nat →
  len docs <= top_k →
  let sims := np_dot (encode query) <$> embs in
  ∃ indices result,
    retrieve_chunks query (Some sid) top_k st = Returns result
    ∧ Forall2 (fun i t => docs !! i = Some t) indices result
    ∧ indices ≡ₚ seq 0 (length docs)
    ∧ result ≡ₚ docs
    ∧ ∀ i j a b x y,
        (i <= j)%nat → indices !! i = Some a → indices !! j = Some b →
        sims !! a = Some x → sims !! b = Some y → f_lt x y = false.
Proof.
  intros Hholds Hdocs Htop sims.
  destruct (holds_chunks_nonempty st sid docs embs Hholds Hdocs)
    as [Hne _].
  pose proof Hholds as (Hd & He & _ & Hlen).
  assert (sims ≠ []) as Hsims by (subst sims; by destruct embs).
  assert (length sims = length docs) as Hsl
    by (subst sims; by rewrite length_fmap).
  assert (1 <= top_k) as Htop1 by (unfold len in *; lia).
  destruct (selected_indices_run query embs top_k Htop1 Hne)
    as (selected & Hsel & Hshort & _ & Hrange).
  cbv zeta in Hshort. fold sims in Hshort.
  assert (top_indices sims top_k = reverse (np_argsort sims)) as Htops.
  { rewrite top_indices_drop by done.
    destruct (Z.leb_spec 1 top_k); [|lia].
    replace (Z.to_nat _) with 0%nat by (unfold len in *; lia). done. }
  rewrite Htops in Hshort.
  rewrite Hshort in *
    by (unfold len in *; rewrite length_reverse, np_argsort_len; lia).
  rewrite (retrieve_chunks_selected _ _ _ _ _ _ _ Hholds Hne Hsel).
  destruct (texts_of_indices docs (reverse (np_argsort sims)))
    as (result & Hres & Hf2).
  { eapply Forall_impl; [exact Hrange|]. intros i Hi. simpl in Hi. lia. }
  assert (reverse (np_argsort sims) ≡ₚ seq 0 (length docs)) as Hperm
    by (by rewrite reverse_Permutation, np_argsort_perm, Hsl).
  exists (reverse (np_argsort sims)), result.
  split_and!; [done|done|done|by eapply texts_of_permutation|].
  intros i j a b x y Hij Ha Hb Hx Hy.
  apply reverse_lookup_Some in Ha as [Ha Hi], Hb as [Hb Hj].
  apply (np_argsort_ascending sims
           (length (np_argsort sims) - S j) (length (np_argsort sims) - S i)
           b a y x); [lia|done..].
Qed.

End RetrieveMore.

(** ** Clearing a session: recovery and reload *)

Section Recovery.
Context `{Externals}.

(** X20. Whatever an ingestion or a load of session [s] did to a store
    whose dictionaries agreed, also a load that stopped at a row it could
    not unpickle, clearing [s] afterwards leaves a store whose dictionaries
    agree again, without session [s]. *)
Theorem clear_restores_invariant op s st :
  store_inv st → op_session op = Some s →
  let st' := (clear_session_documents s (run_op op st).2).2 in
  store_inv st' ∧ session_of st' s = (None, None, None).
Proof.
  intros Hinv Hop. cbv zeta. split.
  - apply store_inv_alt. intros k. simpl. rewrite !dict_discard_lookup.
    case_decide as Hk; [done|].
    pose proof (run_op_other op s k st Hop Hk) as Heq.
    unfold session_of in Heq. injection Heq as -> -> ->.
    apply (proj1 (store_inv_alt st) Hinv k).
  - unfold session_of. simpl. by rewrite !dict_discard_gone.
Qed.

(** X21. Clearing a session and loading it from rows whose vectors can
    all be unpickled leaves the session with the texts, the vectors and
    the metadata of the rows and nothing else, whatever it held before. *)
Theorem reload_session s rows st :
  store_inv st → rows_loadable rows →
  let st' :=
    (load_session_from_database s rows (clear_session_documents s st).2).2 in
  texts_of st' s = chunk_text <$> rows
  ∧ Forall2 (fun r v => pickle_loads (embedding_vector r) = Some v) rows
      (vectors_of st' s)
  ∧ metadata_of st' s = row_metadata <$> rows
  ∧ store_inv st'.
Proof.
  intros Hinv Hrows. cbv zeta.
  pose proof (clear_session_inv s st Hinv) as Hinv0.
  destruct (load_session_spec s rows _ Hinv0 Hrows)
    as (_ & Ht & (vs & Hvs & Hv) & Hm).
  cbv zeta in Ht, Hv, Hm.
  destruct (load_session_inv s rows _ Hinv0 Hrows) as [_ Hinv'].
  rewrite Ht, Hv, Hm.
  unfold texts_of, vectors_of, metadata_of. simpl.
  rewrite !dict_discard_gone. by split_and!.
Qed.

End Recovery.

(** ** The caller [ask_ai_with_docs] *)

Section Asking.
Context `{Externals} `{ChatModel}.

(** X22. When the session has no chunk, [ask_ai_with_docs] answers
    ["Please upload a document first before asking questions."] for
    every question, without calling the language model. *)
Theorem ask_ai_with_docs_no_documents question session_id st :
  no_chunks st session_id →
  ask_ai_with_docs question session_id st = Returns upload_first.
Proof.
  intros Hno. unfold ask_ai_with_docs.
  rewrite (retrieve_chunks_no_chunks _ _ _ _ Hno).
  cbn [mbind outcome_bind bind head]. by rewrite decide_True.
Qed.

Context `{!ExternalsLaws}.

Lemma ask_ai_with_docs_spec question sid st docs embs :
  holds_chunks st sid docs embs → (1 <= length docs)%nat →
  ∃ i t rest,
    retrieve_chunks question (Some sid) 5 st = Returns (t :: rest)
    ∧ docs !! i = Some t
    ∧ ask_ai_with_docs question (Some sid) st
      = Returns
          (if decide (t = sentinel) then upload_first
           else answer_of
                  (chat_completion system_message
                     (build_prompt (build_context (t :: rest)) question))).
Proof.
  intros Hholds Hdocs.
  destruct (retrieve_chunks_head question sid 5 st docs embs Hholds Hdocs)
    as (i & t & rest & Hret & Ht & _); [lia|].
  exists i, t, rest. split_and!; [done..|].
  unfold ask_ai_with_docs. rewrite Hret. simpl.
  destruct (decide (t = sentinel)) as [->|Hne].
  - by rewrite decide_True.
  - rewrite decide_False; [done|]. congruence.
Qed.


(** X24. A document whose cleaned text is the sentence
    ["No document uploaded yet."], ingested into a session that held no
    chunk, is stored as one chunk; yet every question on that session is
    answered ["Please upload a document first before asking questions."]:
    the caller takes the chunk for the sentinel of an empty session. *)
Theorem ask_ai_with_docs_sentinel_document t d sid name st question :
  store_inv st → texts_of st sid = [] → clean_text t = sentinel →
  let st' := (process_document_text_with_storage t d sid name st).2 in
  texts_of st' sid = [sentinel]
  ∧ ask_ai_with_docs question (Some sid) st' = Returns upload_first.
Proof.
  intros Hinv Hnil Hclean. cbv zeta.
  destruct (process_document_spec t d sid name st Hinv) as (_ & Hd & He & Hm).
  cbv zeta in Hd, He, Hm.
  destruct (store_inv_lengths st sid Hinv) as [Hlen1 Hlen2].
  rewrite Hnil in Hd, Hlen1, Hlen2. simpl in Hlen1, Hlen2.
  destruct (vectors_of st sid); [|done].
  destruct (metadata_of st sid); [|done].
  rewrite Hclean in Hd, He, Hm.
  assert (split_text_intelligent sentinel default_chunk_size default_overlap
          = [sentinel]) as Hcs by (by vm_compute).
  rewrite Hcs in Hd, He, Hm. simpl in Hd, He, Hm.
  set (st' := (process_document_text_with_storage t d sid name st).2) in *.
  split; [unfold texts_of; by rewrite Hd|].
  assert (holds_chunks st' sid [sentinel] [encode sentinel]) as Hholds.
  { split_and!; [done|done| |done]. eexists. split; [exact Hm|done]. }
  destruct (ask_ai_with_docs_spec question sid st' _ _ Hholds)
    as (i & c & rest & _ & Hc & ->); [simpl; lia|].
  destruct i; simpl in Hc; [|done]. simplify_eq.
  by rewrite decide_True.
Qed.

End Asking.

(** ** The chunker never cuts inside a sentence *)

Lemma re_split_from_no_end piece s :
  Forall (fun c => is_sentence_end c = false) s →
  re_split_from piece false false s = [piece ++ s].
Proof.
  intros Hs. revert piece.
  induction Hs as [|c s Hc _ IH]; intros piece; simpl.
  - by rewrite app_nil_r.
  - rewrite Hc. destruct (isspace c); by rewrite IH, <- (assoc_L (++)).
Qed.

Lemma chunk_step_count chunk_size overlap st sentence :
  let st' := chunk_step chunk_size overlap st sentence in
  (length (chunks st') + (if truthy (current_chunk st') then 1 else 0)
   <= S (length (chunks st) + (if truthy (current_chunk st) then 1 else 0)))%nat.
Proof.
  unfold chunk_step. destruct (_ && _) eqn:Hcond; simpl.
  - apply andb_true_iff in Hcond as [_ ->]. rewrite length_app. simpl.
    destruct (truthy _); lia.
  - destruct (truthy (current_chunk st ++ _)), (truthy (current_chunk st));
      lia.
Qed.

Lemma chunk_fold_count chunk_size overlap sentences st :
  let st' := fold_left (chunk_step chunk_size overlap) sentences st in
  (length (chunks st') + (if truthy (current_chunk st') then 1 else 0)
   <= length sentences
      + (length (chunks st) + (if truthy (current_chunk st) then 1 else 0)))%nat.
Proof.
  revert st. induction sentences as [|s sentences IH]; intros st; simpl; [lia|].
  specialize (IH (chunk_step chunk_size overlap st s)). simpl in IH.
  pose proof (chunk_step_count chunk_size overlap st s) as Hstep.
  simpl in Hstep. lia.
Qed.

(** X27. The chunker cuts between sentences only: it returns at most as
    many chunks as the sentence pattern finds sentences, whatever the chunk
    size; and a text with none of the characters [.], [!], [?] comes back
    as one chunk of all its words, however many they are. *)
Theorem split_text_intelligent_at_most_sentences t chunk_size overlap :
  (length (split_text_intelligent t chunk_size overlap)
   <= length (re_split_sentences t))%nat
  ∧ (Forall (fun c => is_sentence_end c = false) t →
     split_text_intelligent t chunk_size overlap
     = if decide (split t = []) then [] else [join (split t)]).
Proof.
  split.
  - unfold split_text_intelligent.
    pose proof (chunk_fold_count chunk_size overlap (re_split_sentences t)
                  chunker_init) as Hcount.
    simpl in Hcount.
    destruct (truthy _); rewrite ?length_app; simpl; lia.
  - intros Ht. unfold split_text_intelligent, re_split_sentences.
    rewrite (re_split_from_no_end [] t Ht). simpl.
    unfold chunk_step. simpl. rewrite andb_false_r. simpl.
    case_decide as Hnil; [by rewrite Hnil|].
    by apply truthy_true in Hnil as ->.
Qed.

(** ** The default session *)

Section DefaultSession.
Context `{Externals} `{!ExternalsLaws}.


End DefaultSession.

(** ** Clearing the whole store *)

Section ClearAll.
Context `{Externals}.

Lemma run_clear_sessions_lookup l st k :
  session_of (run_ops (ClearSession <$> l) st) k
  = if decide (k ∈ l) then (None, None, None) else session_of st k.
Proof.
  revert st. induction l as [|s l IH]; intros st.
  - rewrite decide_False; [done|]. apply not_elem_of_nil.
  - change (run_ops (ClearSession <$> s :: l) st)
      with (run_ops (ClearSession <$> l) (run_op (ClearSession s) st).2).
    rewrite IH. cbn [run_op snd].
    destruct (decide (k ∈ l)) as [Hin|Hnotin].
    + rewrite decide_True; [done|]. by right.
    + unfold session_of at 1. simpl. rewrite !dict_discard_lookup.
      destruct (decide (s = k)) as [->|Hne].
      * rewrite decide_True; [done|]. by left.
      * rewrite decide_False; [done|].
        intros [->|Hin]%elem_of_cons; done.
Qed.

(** X29. [clear_document_store] raises nothing and leaves, whatever the
    store held, the store that clearing every session in turn with
    [clear_session_documents] leaves: the empty one, in which the
    statistics count no session and no chunk. *)
Theorem clear_document_store_clears_every_session st :
  let sessions :=
    elements (dom (session_documents st) ∪ dom (session_embeddings st)
              ∪ dom (session_metadata st)) in
  (clear_document_store st).1 = Returns ()
  ∧ (clear_document_store st).2 = run_ops (ClearSession <$> sessions) st
  ∧ get_stats (clear_document_store st).2 = Returns (AllStats 0 0 ∅).
Proof.
  cbv zeta. split_and!; [done| |done].
  set (l := elements _).
  assert (∀ k, session_of (run_ops (ClearSession <$> l) st) k
               = (None, None, None)) as Hall.
  { intros k. rewrite run_clear_sessions_lookup.
    case_decide as Hin; [done|].
    unfold l in Hin. rewrite elem_of_elements, !elem_of_union in Hin.
    unfold session_of.
    rewrite !(proj1 (not_elem_of_dom _ _)); [done|tauto..]. }
  destruct (run_ops (ClearSession <$> l) st) as [d e m].
  unfold clear_document_store, empty_store. simpl. unfold session_of in Hall.
  simpl in Hall. f_equal; symmetry; apply map_empty; intros k;
    specialize (Hall k); by simplify_eq.
Qed.

End ClearAll.

(** ** The statements of this part at concrete inputs *)

Lemma store_two_inv : @store_inv Rational.externals Rational.store_two.
Proof.
  apply store_inv_alt. intros k. simpl.
  destruct (decide (k = "s"%string)) as [->|Hne].
  - by rewrite !lookup_singleton_eq.
  - by rewrite !lookup_singleton_ne.
Qed.

Lemma store_three_more_inv :
  @store_inv Rational.externals Rational.store_three_more.
Proof.
  apply store_inv_alt. intros k. simpl.
  destruct (decide (k = "t"%string)) as [->|Hnt].
  - by rewrite !lookup_insert_eq.
  - rewrite !lookup_insert_ne by done.
    destruct (decide (k = "s"%string)) as [->|Hne].
    + by rewrite !lookup_singleton_eq.
    + by rewrite !lookup_singleton_ne.
Qed.

Lemma good_row_loadable : @rows_loadable Rational.externals [Rational.good_row].
Proof. constructor; [by eexists|constructor]. Qed.

(** A document of four words ingested into a session of two chunks. *)
Lemma process_document_appends_witness :
  @store_inv Rational.externals Rational.store_two
  ∧ texts_of
      (@process_document_text_with_storage Rational.externals
         (str "  c d.  e
f. ") "d3" "s" "h.txt" Rational.store_two).2 "s"
    = [str "a"; str "b"; str "c d. e f."].
Proof.
  split; [exact store_two_inv|].
  destruct (@process_document_appends Rational.externals (str "  c d.  e
f. ") "d3" "s" "h.txt" Rational.store_two store_two_inv) as (_ & -> & _).
  reflexivity.
Defined.

(** One row loaded into a session of two chunks. *)
Lemma load_session_appends_witness :
  @store_inv Rational.externals Rational.store_two
  ∧ @rows_loadable Rational.externals [Rational.good_row]
  ∧ texts_of
      (@load_session_from_database Rational.externals "s"
         [Rational.good_row] Rational.store_two).2 "s"
    = [str "a"; str "b"; str "b"].
Proof.
  split; [exact store_two_inv|]. split; [exact good_row_loadable|].
  destruct (@load_session_appends Rational.externals "s" [Rational.good_row]
              Rational.store_two store_two_inv good_row_loadable)
    as (_ & -> & _).
  reflexivity.
Defined.

(** A row that can be read, then one that cannot, then one more. *)
Lemma load_session_failure_witness :
  @store_inv Rational.externals Rational.store_two
  ∧ @pickle_loads Rational.externals
      (embedding_vector Rational.corrupt_row) = None
  ∧ (@load_session_from_database Rational.externals "s"
       ([Rational.good_row] ++ Rational.corrupt_row :: [Rational.good_row])
       Rational.store_two).1
    = Raises UnpicklingError
  ∧ ¬ store_inv
        (@load_session_from_database Rational.externals "s"
           ([Rational.good_row] ++ Rational.corrupt_row :: [Rational.good_row])
           Rational.store_two).2.
Proof.
  split; [exact store_two_inv|]. split; [reflexivity|].
  destruct (@load_session_failure Rational.externals "s" [Rational.good_row]
              Rational.corrupt_row [Rational.good_row] Rational.store_two
              store_two_inv good_row_loadable eq_refl)
    as (Hr & _ & _ & _ & _ & Hinv).
  split; [exact Hr|exact Hinv].
Defined.

(** A failing load of session ["t"] on a store with session ["s"]. *)
Lemma other_sessions_untouched_witness :
  "t"%string ≠ "s"%string
  ∧ ∀ query top_k,
      @retrieve_chunks Rational.externals query (Some "s"%string) top_k
        (run_op (Rehydrate "t" [Rational.corrupt_row]) Rational.store_three).2
      = @retrieve_chunks Rational.externals query (Some "s"%string) top_k
          Rational.store_three.
Proof.
  assert ("t"%string ≠ "s"%string) as Hne by discriminate.
  split; [exact Hne|].
  exact (proj1 (proj2 (@other_sessions_untouched Rational.externals
                         (Rehydrate "t" [Rational.corrupt_row]) "t" "s"
                         Rational.store_three eq_refl Hne))).
Defined.

(** Two chunks of one document. *)
Lemma get_session_stats_counts_witness :
  @store_inv Rational.externals Rational.store_two
  ∧ "s"%string ≠ EmptyString
  ∧ ∃ unique,
      @get_session_stats Rational.externals (Some "s"%string)
        Rational.store_two
      = Returns (SessionStats "s" 2 unique)
      ∧ 1 <= unique <= 2.
Proof.
  assert ("s"%string ≠ EmptyString) as Hs by discriminate.
  split; [exact store_two_inv|]. split; [exact Hs|].
  destruct (@get_session_stats_counts Rational.externals "s"
              Rational.store_two store_two_inv Hs)
    as (unique & Hstats & Hle & Hge & _).
  exists unique. split; [exact Hstats|].
  split; [apply Hge; vm_compute; discriminate|exact (proj2 Hle)].
Defined.


(** A document for a new session of a store with one session. *)
Lemma get_stats_after_ingest_witness :
  @store_inv Rational.externals Rational.store_two
  ∧ @get_stats Rational.externals Rational.store_two
    = Returns (AllStats 1 2 {[ "s"%string ]})
  ∧ @get_stats Rational.externals
      (process_document_text_with_storage (str "c d. e f.") "d3" "t" "h.txt"
         Rational.store_two).2
    = Returns (AllStats 2 3 ({[ "s"%string ]} ∪ {[ "t"%string ]})).
Proof.
  split; [exact store_two_inv|]. split; [reflexivity|].
  rewrite (@get_stats_after_ingest Rational.externals (str "c d. e f.")
             "d3" "t" "h.txt" Rational.store_two 1 2 {[ "s"%string ]}
             store_two_inv eq_refl).
  reflexivity.
Defined.

(** Four words and a chunk size of ten. *)
Lemma split_text_intelligent_short_witness :
  (len (split (str "a b. c d.")) <= 10 ∨ split (str "a b. c d.") = [])
  ∧ split_text_intelligent (str "a b. c d.") 10 3 = [str "a b. c d."].
Proof.
  assert (len (split (str "a b. c d.")) <= 10 ∨ split (str "a b. c d.") = [])
    as Hshort by (left; vm_compute; discriminate).
  split; [exact Hshort|].
  rewrite (split_text_intelligent_short (str "a b. c d.") 10 3 Hshort).
  reflexivity.
Defined.

Lemma sentences_of_two_words :
  Forall (fun s => len (split s) <= 3 - 1)
    (re_split_sentences (str "a b. c d. e f.")).
Proof.
  change (re_split_sentences (str "a b. c d. e f."))
    with [str "a b."; str "c d."; str "e f."].
  repeat (apply Forall_cons; split; [vm_compute; discriminate|]).
  apply Forall_nil_2.
Qed.

(** Three sentences of two words, chunks of three words, one word of
    overlap. *)
Lemma split_text_intelligent_chunk_size_witness :
  1 <= 1
  ∧ Forall (fun c => len (split c) <= 3)
      (split_text_intelligent (str "a b. c d. e f.") 3 1).
Proof.
  split; [lia|].
  apply (split_text_intelligent_chunk_size (str "a b. c d. e f.") 3 1);
    [lia|exact sentences_of_two_words].
Defined.

(** A text of a tab and two control characters, on the empty store. *)
Lemma ingest_adds_chunks_iff_visible_witness :
  @store_inv Rational.externals empty_store
  ∧ Forall (fun c => is_visible c = false) [9%N; 0%N; 1%N]
  ∧ ∀ query top_k,
      @retrieve_chunks Rational.externals query (Some "s"%string) top_k
        (process_document_text_with_storage [9%N; 0%N; 1%N] "d1" "s" "f.txt"
           empty_store).2
      = Returns [sentinel].
Proof.
  assert (Forall (fun c => is_visible c = false) [9%N; 0%N; 1%N]) as Hno
    by (repeat constructor).
  split; [apply empty_store_inv|]. split; [exact Hno|].
  exact (proj2 (proj2 (@ingest_adds_chunks_iff_visible Rational.externals
                         [9%N; 0%N; 1%N] "d1" "s" "f.txt" empty_store
                         empty_store_inv) Hno eq_refl)).
Defined.

(** A document of four words on the empty store. *)
Lemma ingest_short_document_witness :
  @store_inv Rational.externals empty_store
  ∧ texts_of
      (@process_document_text_with_storage Rational.externals
         (str " a b.  c d. ") "d1" "s" "f.txt" empty_store).2 "s"
    = [str "a b. c d."].
Proof.
  split; [apply empty_store_inv|].
  destruct (@ingest_short_document Rational.externals (str " a b.  c d. ")
              "d1" "s" "f.txt" empty_store empty_store_inv)
    as (-> & _).
  - repeat constructor.
  - vm_compute. split; discriminate.
  - reflexivity.
Defined.


(** Three chunks: [top_k = -2] raises, [-2 * top_k] being more than
    three. *)
Lemma retrieve_chunks_top_k_below_one_witness :
  -2 <= 0
  ∧ @retrieve_chunks Rational.externals (str "ab") (Some "s"%string) (-2)
      Rational.store_three
    = Raises IndexError.
Proof.
  split; [lia|].
  apply (@retrieve_chunks_top_k_below_one Rational.externals rational_laws
           (str "ab") "s"%string (-2) Rational.store_three _ _
           holds_chunks_store_three); [simpl; lia|lia|vm_compute; discriminate].
Defined.

(** Three chunks and [top_k = 3]. *)
Lemma retrieve_chunks_all_witness :
  3 <= 3
  ∧ ∃ result,
      @retrieve_chunks Rational.externals (str "ab") (Some "s"%string) 3
        Rational.store_three
      = Returns result
      ∧ result ≡ₚ [str "alpha"; str "alpha again"; str "beta"].
Proof.
  split; [lia|].
  destruct (@retrieve_chunks_all Rational.externals rational_laws
              (str "ab") "s"%string 3 Rational.store_three _ _
              holds_chunks_store_three ltac:(simpl; lia)
              ltac:(vm_compute; discriminate))
    as (indices & result & Hret & _ & _ & Hperm & _).
  exists result. split; [exact Hret|exact Hperm].
Defined.

(** A load that fails, then a clear of the session. *)
Lemma clear_restores_invariant_witness :
  @store_inv Rational.externals Rational.store_two
  ∧ store_inv
      (clear_session_documents "s"
         (run_op (Rehydrate "s" [Rational.corrupt_row])
            Rational.store_two).2).2.
Proof.
  split; [exact store_two_inv|].
  exact (proj1 (@clear_restores_invariant Rational.externals
                  (Rehydrate "s" [Rational.corrupt_row]) "s"
                  Rational.store_two store_two_inv eq_refl)).
Defined.

(** A session of two chunks reloaded from one row. *)
Lemma reload_session_witness :
  @store_inv Rational.externals Rational.store_two
  ∧ @rows_loadable Rational.externals [Rational.good_row]
  ∧ texts_of
      (@load_session_from_database Rational.externals "s"
         [Rational.good_row]
         (clear_session_documents "s" Rational.store_two).2).2 "s"
    = [str "b"].
Proof.
  split; [exact store_two_inv|]. split; [exact good_row_loadable|].
  exact (proj1 (@reload_session Rational.externals "s" [Rational.good_row]
                  Rational.store_two store_two_inv good_row_loadable)).
Defined.

(** The empty store. *)
Lemma ask_ai_with_docs_no_documents_witness :
  @no_chunks Rational.externals empty_store (Some "s1"%string)
  ∧ @ask_ai_with_docs Rational.externals Toy.echo (str "What is it?")
      (Some "s1"%string) empty_store
    = Returns (str "Please upload a document first before asking questions.").
Proof.
  assert (@no_chunks Rational.externals empty_store (Some "s1"%string))
    as Hno by (left; reflexivity).
  split; [exact Hno|].
  exact (@ask_ai_with_docs_no_documents Rational.externals Toy.echo
           (str "What is it?") (Some "s1"%string) empty_store Hno).
Defined.



(** The sentence of the sentinel as a document, on the empty store. *)
Lemma ask_ai_with_docs_sentinel_document_witness :
  @store_inv Rational.externals empty_store
  ∧ clean_text (str " No document  uploaded yet. ") = sentinel
  ∧ @ask_ai_with_docs Rational.externals Toy.echo (str "What is it?")
      (Some "s"%string)
      (process_document_text_with_storage (str " No document  uploaded yet. ")
         "d1" "s" "f.txt" empty_store).2
    = Returns upload_first.
Proof.
  split; [apply empty_store_inv|]. split; [reflexivity|].
  exact (proj2 (@ask_ai_with_docs_sentinel_document Rational.externals
                  Toy.echo rational_laws (str " No document  uploaded yet. ")
                  "d1" "s" "f.txt" empty_store (str "What is it?")
                  empty_store_inv eq_refl eq_refl)).
Defined.

Lemma ops_loadable :
  Forall (@op_loadable Rational.externals)
    [Ingest (str "a b. c d.") "d1" "s" "f.txt";
     Rehydrate "s" [Rational.good_row];
     ClearSession "s";
     Rehydrate "t" [Rational.good_row];
     ClearAll;
     Ingest (str "e f.") "d3" "t" "h.txt"].
Proof.
  repeat (apply Forall_cons; split;
          [first [exact I|exact good_row_loadable]|]).
  apply Forall_nil_2.
Qed.

(** An ingestion, a load, a clear, a load, a clear of everything and an
    ingestion, from the empty store. *)
Lemma run_ops_inv_witness :
  @store_inv Rational.externals empty_store
  ∧ store_inv
      (@run_ops Rational.externals
         [Ingest (str "a b. c d.") "d1" "s" "f.txt";
          Rehydrate "s" [Rational.good_row];
          ClearSession "s";
          Rehydrate "t" [Rational.good_row];
          ClearAll;
          Ingest (str "e f.") "d3" "t" "h.txt"]
         empty_store).
Proof.
  split; [apply empty_store_inv|].
  apply (@run_ops_inv Rational.externals _ empty_store empty_store_inv
           ops_loadable).
Defined.

(** Three sentences of two words, chunks of three words, one word of
    overlap. *)
Lemma split_text_intelligent_coverage_witness :
  1 <= 1
  ∧ non_overlap_words 1 None
      (split_text_intelligent (str "a b. c d. e f.") 3 1)
    = split (str "a b. c d. e f.").
Proof.
  split; [lia|].
  apply (split_text_intelligent_coverage (str "a b. c d. e f.") 3 1). lia.
Defined.

